(** * Taiwan-Credit-Card-Helper: card de-duplication and the discovery loop

    A shallow embedding of [deduplicateCards] ([src/App.tsx], lines 16-40)
    and of the background discovery effect with its [runDiscovery] loop
    ([src/App.tsx], lines 451-509), together with the properties the
    design notes state about them.

    Conventions.
    - A JavaScript string is its sequence of UTF-16 code units, a [list N].
    - An ES2015 [Map] is an association list in insertion order: [set] on a
      key that is present overwrites the value in place, [set] on a new key
      appends an entry, and [values()] iterates in that order.
    - A [Set] of strings is a [gset].
    - An optional field ([isLive?: boolean]) is an [option]; [None] is
      [undefined]. *)

From Stdlib Require Import NArith ZArith String Ascii DecimalString.
From stdpp Require Import base option list gmap.

Local Open Scope list_scope.

(** ** JavaScript strings *)

Abbreviation JSString := (list N).

(** A literal: the code units of an ASCII string. *)
Definition js (s : string) : JSString :=
  N_of_ascii <$> list_ascii_of_string s.

Definition inRange (lo hi u : N) : bool := ((lo <=? u) && (u <=? hi))%N.

(** The character class of the regular expression
    [/[^a-z0-9\u4e00-\u9fa5]/g] before negation. *)
Definition inKeyClass (u : N) : bool :=
  inRange 0x61%N 0x7A%N u || inRange 0x30%N 0x39%N u
  || inRange 0x4E00%N 0x9FA5%N u.

(** [String.prototype.toLowerCase], one code unit at a time.  The table holds
    the Basic Latin capitals and the two code units outside Basic Latin whose
    lower-case image contains a Basic Latin letter: U+0130 (capital I with
    dot above, image "i" followed by U+0307) and U+212A (Kelvin sign, image
    "k").  Any other code unit is left in place: the rest of the Unicode case
    table is not reproduced.  No code unit outside the table has a member of
    [inKeyClass] in its image unless it is such a member, and those are
    their own image, so the omission cannot be seen through the [replace]
    that follows in [normalizeKey]. *)
Definition lowerUnit (u : N) : JSString :=
  if inRange 0x41%N 0x5A%N u then [(u + 0x20)%N]
  else if (u =? 0x130)%N then [0x69%N; 0x307%N]
  else if (u =? 0x212A)%N then [0x6B%N]
  else [u].

Definition toLowerCase (s : JSString) : JSString := s ≫= lowerUnit.

(** [s.replace(/[^a-z0-9\u4e00-\u9fa5]/g, '')]: every match of the negated
    class, a single code unit, is replaced by the empty string. *)
Fixpoint replaceOutsideKeyClass (s : JSString) : JSString :=
  match s with
  | [] => []
  | u :: rest =>
      if negb (inKeyClass u) then replaceOutsideKeyClass rest
      else u :: replaceOutsideKeyClass rest
  end.

(** ** The data model of [src/types.ts] *)

Inductive CardCategory :=
  | ALL | CONVENIENCE | ONLINE | TRAVEL_JP_KR | GAS | GENERAL | MOBILE_PAY.

Record CardReward := {
  type : JSString;
  value : JSString;
  cap : option JSString;
  condition : option JSString;
  description : JSString
}.

Record AnnualFee := {
  fee : JSString;
  waiveCondition : JSString
}.

Record CreditCard := {
  id : JSString;
  name : JSString;
  bank : JSString;
  imageUrl : option JSString;
  link : option JSString;
  rewards : list (CardCategory * CardReward);
  annualFee : AnnualFee;
  tags : list JSString;
  pros : option (list JSString);
  cons : option (list JSString);
  lastUpdated : JSString;
  isLive : option bool;
  verified : option bool
}.

(** Truthiness of an optional boolean: [undefined] and [false] are falsy. *)
Definition truthy (b : option bool) : bool :=
  match b with
  | Some true => true
  | _ => false
  end.

(** ** ES2015 [Map] with string keys *)

Module JSMap.
Section Ops.
Context {V : Type}.

Definition t := list (JSString * V).

Definition empty : t := [].

Fixpoint get (key : JSString) (m : t) : option V :=
  match m with
  | [] => None
  | (k, v) :: rest => if decide (k = key) then Some v else get key rest
  end.

Fixpoint has (key : JSString) (m : t) : bool :=
  match m with
  | [] => false
  | (k, _) :: rest => if decide (k = key) then true else has key rest
  end.

Fixpoint set (key : JSString) (v : V) (m : t) : t :=
  match m with
  | [] => [(key, v)]
  | (k, x) :: rest =>
      if decide (k = key) then (k, v) :: rest else (k, x) :: set key v rest
  end.

Definition keys (m : t) : list JSString := m.*1.

Definition values (m : t) : list V := m.*2.
End Ops.
Arguments t : clear implicits.
End JSMap.

(** ** [deduplicateCards] *)

(** The key computed on line 21. *)
Definition normalizeKey (s : JSString) : JSString :=
  replaceOutsideKeyClass (toLowerCase s).

Definition cardKey (card : CreditCard) : JSString :=
  normalizeKey (bank card ++ name card).

(** The body of the [forEach] callback, lines 19-37.  [map.get(key)!] is read
    under the guard [map.has(key)], so the stored value is present; the
    guard and the read are one [match] here (the imperative reading further
    down keeps them apart). *)
Definition dedupStep (map : JSMap.t CreditCard) (card : CreditCard)
  : JSMap.t CreditCard :=
  let key := cardKey card in
  match JSMap.get key map with
  | Some existing =>
      if truthy (isLive card) && negb (truthy (isLive existing)) then
        JSMap.set key card map
      else if truthy (isLive card) && truthy (isLive existing) then
        JSMap.set key card map
      else map
  | None => JSMap.set key card map
  end.

(** The map after the [forEach] over [cards]. *)
Definition scanCards (cards : list CreditCard) : JSMap.t CreditCard :=
  fold_left dedupStep cards JSMap.empty.

Definition deduplicateCards (cards : list CreditCard) : list CreditCard :=
  JSMap.values (scanCards cards).

(** ** An imperative reading of [deduplicateCards]

    The same function over a heap of objects, so that what it reads and
    writes is explicit: the argument is a reference to an array of
    references to card objects; the [Map] is an object local to the call and
    holds references; the result is a newly allocated array.  A computation
    either returns a value and a heap or throws. *)

Module Imp.

Abbreviation loc := positive.

Inductive object :=
  | Card (c : CreditCard)
  | Array (elems : list loc).

Abbreviation heap := (gmap loc object).

Inductive outcome (A : Type) :=
  | Return (a : A) (h : heap)
  | Throw.
Arguments Return {A} a h.
Arguments Throw {A}.

Definition M (A : Type) : Type := heap -> outcome A.

#[global] Instance M_ret : MRet M := λ A a h, Return a h.

#[global] Instance M_bind : MBind M := λ A B k c h,
  match c h with
  | Return a h' => k a h'
  | Throw => Throw
  end.

#[global] Instance M_fmap : FMap M := λ A B f c h,
  match c h with
  | Return a h' => Return (f a) h'
  | Throw => Throw
  end.

(** The elements of an array, as [forEach] visits them. *)
Definition elements (a : loc) : M (list loc) := λ h,
  match h !! a with
  | Some (Array elems) => Return elems h
  | _ => Throw
  end.

(** Reading a property of a card object.  A reference that is not a card
    object is outside the type [CreditCard[]]; the read throws. *)
Definition field {A : Type} (f : CreditCard -> A) (r : loc) : M A := λ h,
  match h !! r with
  | Some (Card c) => Return (f c) h
  | _ => Throw
  end.

(** The value of [map.get(key)!] at its use [existing.isLive]: the property
    read on [undefined] throws a [TypeError]. *)
Definition nonNull {A : Type} (o : option A) : M A := λ h,
  match o with
  | Some a => Return a h
  | None => Throw
  end.

(** [Array.from(...)]: a new array object at an unused location. *)
Definition newArray (elems : list loc) : M loc := λ h,
  let a := fresh (dom h) in Return a (<[a := Array elems]> h).

Fixpoint forEach {S : Type} (body : S -> loc -> M S) (l : list loc) (s : S)
  : M S :=
  match l with
  | [] => mret s
  | x :: rest => s' ← body s x; forEach body rest s'
  end.

(** The property read [r.isLive] as a truth value; [r] is the result of
    [map.get(key)!] and the read throws when it is [undefined]. *)
Definition isLiveOf (r : option loc) : M bool :=
  existing ← nonNull r;
  existingLive ← field isLive existing;
  mret (truthy existingLive).

(** [card.isLive && rhs]: the right operand is evaluated only when the left
    one is truthy. *)
Definition cardLiveAnd (card : loc) (rhs : M bool) : M bool :=
  cardLive ← field isLive card;
  if truthy cardLive then rhs else mret false.

Definition dedupStep (map : JSMap.t loc) (card : loc) : M (JSMap.t loc) :=
  bank ← field bank card;
  name ← field name card;
  let key := normalizeKey (bank ++ name) in
  if JSMap.has key map then
    let existing := JSMap.get key map in
    liveOverStatic ← cardLiveAnd card (negb <$> isLiveOf existing);
    if liveOverStatic : bool then mret (M := M) (JSMap.set key card map)
    else
      bothLive ← cardLiveAnd card (isLiveOf existing);
      if bothLive : bool then mret (JSMap.set key card map)
      else mret map
  else mret (JSMap.set key card map).

Definition deduplicateCards (cards : loc) : M loc :=
  elems ← elements cards;
  map ← forEach dedupStep elems JSMap.empty;
  newArray (JSMap.values map).

(** The card objects a list of references points to. *)
Definition pointsTo (h : heap) (refs : list loc) (recs : list CreditCard)
  : Prop :=
  Forall2 (λ r c, h !! r = Some (Card c)) refs recs.

End Imp.

(** ** The discovery effect *)

(** The ten query templates of [DISCOVERY_QUERIES], by subject; a query is a
    template filled with the current year and month. *)
Inductive Topic :=
  | MustHaveTop10 | JapanTravel | OnlineShopping | OverseasSpending
  | MobilePayment | Fuel | MovieDining | UtilityBills | AirMiles
  | PremiumMetal.

Record Query := {
  year : nat;
  month : nat;
  topic : Topic
}.

Definition DISCOVERY_QUERIES (currentYear currentMonth : nat) : list Query :=
  Build_Query currentYear currentMonth <$>
    [MustHaveTop10; JapanTravel; OnlineShopping; OverseasSpending;
     MobilePayment; Fuel; MovieDining; UtilityBills; AirMiles; PremiumMetal].

(** What [await fetchTrendingCards(...)] gives the loop: the promise resolves
    with a batch or rejects (the rate-limit error). *)
Inductive FetchResult :=
  | Resolved (newCards : list CreditCard)
  | Rejected.

(** The component state the effect touches.  [discoveryStatus] is the query
    shown in the UI, [None] being the empty string. *)
Record AppState := {
  cards : list CreditCard;
  discoveryStatus : option Query;
  discoveredCount : nat
}.

Definition setCards (f : list CreditCard -> list CreditCard) (st : AppState)
  : AppState :=
  {| cards := f (cards st);
     discoveryStatus := discoveryStatus st;
     discoveredCount := discoveredCount st |}.

Definition setDiscoveryStatus (q : option Query) (st : AppState) : AppState :=
  {| cards := cards st;
     discoveryStatus := q;
     discoveredCount := discoveredCount st |}.

Definition setDiscoveredCount (f : nat -> nat) (st : AppState) : AppState :=
  {| cards := cards st;
     discoveryStatus := discoveryStatus st;
     discoveredCount := f (discoveredCount st) |}.

(** [merged.filter(c => { const duplicate = seen.has(c.id); seen.add(c.id);
    return !duplicate; })], lines 490-494. *)
Fixpoint filterUnseen (seen : gset JSString) (merged : list CreditCard)
  : list CreditCard :=
  match merged with
  | [] => []
  | c :: rest =>
      let duplicate := bool_decide (id c ∈ seen) in
      let seen' := {[ id c ]} ∪ seen in
      if negb duplicate then c :: filterUnseen seen' rest
      else filterUnseen seen' rest
  end.

(** The updater passed to [setCards], lines 485-495. *)
Definition mergeBatch (newCards prev : list CreditCard) : list CreditCard :=
  let merged := newCards ++ prev in
  filterUnseen ∅ merged.

(** One call of [fetchTrendingCards] by the loop, with the component state
    committed at the moment of the call: the [setDiscoveryStatus(query)] of
    line 479 is queued just before the call and is not yet part of it. *)
Record Issued := {
  issuedQuery : Query;
  issuedFrom : AppState
}.

(** The [for ... of] loop of [runDiscovery], lines 471-504.  [cards] in the
    loop condition is the constant bound by the render in which the effect
    was created (the effect has an empty dependency list, so it is the state
    at mount); it is the argument [capturedCards] and is not the [cards] of
    the running state [st], which only the updater of [setCards] sees.  A
    rejected fetch is caught and logged; the pause of one second that ends
    each round is not represented.  The result is the state after the loop
    and the calls made, in order. *)
Fixpoint discoveryLoop (capturedCards : list CreditCard)
    (fetchTrendingCards : Query -> FetchResult)
    (queries : list Query) (st : AppState) : AppState * list Issued :=
  match queries with
  | [] => (st, [])
  | query :: rest =>
      if (100 <=? length capturedCards)%nat then (st, [])
      else
        let st1 := setDiscoveryStatus (Some query) st in
        let st2 :=
          match fetchTrendingCards query with
          | Resolved newCards =>
              if (0 <? length newCards)%nat then
                setDiscoveredCount (λ prev, prev + length newCards)%nat
                  (setCards (λ prev, mergeBatch newCards prev) st1)
              else st1
          | Rejected => st1
          end in
        let '(st3, issued) :=
          discoveryLoop capturedCards fetchTrendingCards rest st2 in
        (st3, {| issuedQuery := query; issuedFrom := st |} :: issued)
  end.

Definition runDiscovery (capturedCards : list CreditCard)
    (fetchTrendingCards : Query -> FetchResult)
    (queries : list Query) (st : AppState) : AppState * list Issued :=
  let '(st', issued) :=
    discoveryLoop capturedCards fetchTrendingCards queries st in
  (setDiscoveryStatus None st', issued).

(** The effect body, lines 454-509: [discoveryStarted] is the ref's current
    value; the result carries its new value. *)
Definition discoveryEffect (discoveryStarted : bool)
    (fetchTrendingCards : Query -> FetchResult)
    (currentYear currentMonth : nat) (st : AppState)
  : bool * AppState * list Issued :=
  if discoveryStarted || (100 <? length (cards st))%nat then
    (discoveryStarted, st, [])
  else
    let '(st', issued) :=
      runDiscovery (cards st) fetchTrendingCards
        (DISCOVERY_QUERIES currentYear currentMonth) st in
    (true, st', issued).

(** ** Vocabulary of the statements *)

(** A record is live when its [isLive] is truthy, static otherwise. *)
Definition live (c : CreditCard) : Prop := truthy (isLive c) = true.

#[export] Instance live_dec c : Decision (live c).
Proof. unfold live. apply _. Defined.

(** The records of a list that carry the canonical key [k], in order. *)
Definition withKey (k : JSString) (l : list CreditCard) : list CreditCard :=
  filter (λ c, cardKey c = k) l.

(** No tie decides an output record: the live records of a key are one and
    the same record, and so are the records of a key without live record.
    (Static records of a key that has a live record may differ: none of them
    is output.) *)
Definition tieFree (l : list CreditCard) : Prop :=
  ∀ c1 c2, c1 ∈ l → c2 ∈ l → cardKey c1 = cardKey c2 →
           (live c1 ∧ live c2)
           ∨ (∀ c, c ∈ l → cardKey c = cardKey c1 → ¬ live c) →
           c1 = c2.

(** The record that holds key [k] after a scan of [l], read off the list:
    the last live record with that key if there is one, the first record
    with that key otherwise. *)
Definition winner (k : JSString) (l : list CreditCard) : option CreditCard :=
  match last (filter live (withKey k l)) with
  | Some w => Some w
  | None => head (withKey k l)
  end.

(** Every entry of the map is stored under the key of its record. *)
Definition keyed (m : JSMap.t CreditCard) : Prop :=
  Forall (λ e, cardKey e.2 = e.1) m.

(** The distinct canonical keys of a list. *)
Definition distinctKeys (l : list CreditCard) : list JSString :=
  remove_dups (cardKey <$> l).

(** A map of references stands for a map of records in a heap. *)
Definition mapPointsTo (h : Imp.heap) (refs : JSMap.t Imp.loc)
    (recs : JSMap.t CreditCard) : Prop :=
  Forall2 (λ er ec, er.1 = ec.1 ∧ h !! er.2 = Some (Imp.Card ec.2)) refs recs.

(** Removal of duplicates by [id] that keeps the first occurrence, written
    from the description of the merge rather than from the code: a record
    stays, and the records after it that repeat its [id] go. *)
Fixpoint keepFirstById (l : list CreditCard) : list CreditCard :=
  match l with
  | [] => []
  | c :: rest => c :: filter (λ x, id x ≠ id c) (keepFirstById rest)
  end.

(** The first record of a list with a given [id]. *)
Definition firstWithId (i : JSString) (l : list CreditCard)
  : option CreditCard :=
  head (filter (λ x, id x = i) l).

(** A code unit none of whose lower-case image survives the [replace]. *)
Definition stripped (u : N) : Prop :=
  Forall (λ v, inKeyClass v = false) (lowerUnit u).

(** A record with the given identity and provenance and an empty payload. *)
Definition plainCard (id bank name : JSString) (isLive : option bool)
  : CreditCard :=
  {| id := id; name := name; bank := bank; imageUrl := None; link := None;
     rewards := [];
     annualFee := {| fee := []; waiveCondition := [] |};
     tags := []; pros := None; cons := None; lastUpdated := [];
     isLive := isLive; verified := None |}.

(** Sample records. *)
Definition fooStatic : CreditCard :=
  plainCard (js "c1") (js "Foo") (js "J Card") (Some false).

Definition fooLive : CreditCard :=
  plainCard (js "live_foojcard") (js "Foo") (js "J Card") (Some true).

Definition fooStaticB : CreditCard :=
  plainCard (js "c2") (js "Foo") (js "J Card") (Some false).

Definition fooLegacy : CreditCard :=
  plainCard (js "c7") (js "FOO") (js "J-Card") None.

Definition fooStaticDup : CreditCard :=
  plainCard (js "c1") (js "Foo") (js "J Card (2019)") (Some false).

Definition sampleHeap : Imp.heap :=
  <[1%positive := Imp.Card fooStatic]>
    (<[2%positive := Imp.Card fooLive]>
       (<[3%positive := Imp.Array [1%positive; 2%positive]]> ∅)).

(** A mount state of 99 stored cards, and a service that answers every
    query with three cards that are new to the state. *)
Definition storedCard (n : nat) : CreditCard :=
  plainCard [N.of_nat n] (js "Bank") [N.of_nat n] (Some false).

Definition sampleState : AppState :=
  {| cards := storedCard <$> seq 0 99;
     discoveryStatus := None;
     discoveredCount := 0 |}.

Definition topicIndex (t : Topic) : nat :=
  match t with
  | MustHaveTop10 => 0 | JapanTravel => 1 | OnlineShopping => 2
  | OverseasSpending => 3 | MobilePayment => 4 | Fuel => 5
  | MovieDining => 6 | UtilityBills => 7 | AirMiles => 8 | PremiumMetal => 9
  end.

Definition fetchedCard (n : nat) : CreditCard :=
  plainCard [N.of_nat n] (js "Live") [N.of_nat n] (Some true).

Definition sampleService (q : Query) : FetchResult :=
  let base := 1000 + 3 * topicIndex (topic q) in
  Resolved [fetchedCard base; fetchedCard (base + 1); fetchedCard (base + 2)].

(** ** The rest of the card state in [src/App.tsx] *)

#[global] Instance CardCategory_eq_dec : EqDecision CardCategory.
Proof. solve_decision. Defined.

(** [Object.keys(c.rewards).includes(activeCategory)], line 446. *)
Definition hasRewardFor (activeCategory : CardCategory) (c : CreditCard)
  : Prop :=
  activeCategory ∈ (rewards c).*1.

#[global] Instance hasRewardFor_dec a c : Decision (hasRewardFor a c).
Proof. unfold hasRewardFor. apply _. Defined.

(** The memoised [displayedCards], lines 443-449. *)
Definition displayedCards (cards : list CreditCard)
    (activeCategory : CardCategory) : list CreditCard :=
  let filtered :=
    if decide (activeCategory ≠ ALL) then
      filter (hasRewardFor activeCategory) cards
    else cards in
  deduplicateCards filtered.

(** [CategoryMetaData] of [src/types.ts]; [lastFetch] is a timestamp in
    milliseconds or [null]. *)
Record CategoryMetaData := {
  lastFetch : option Z;
  loading : bool
}.

(** The part of the component state that [refreshCategory] touches.
    [categoryMeta] is initialised with an entry for every category (lines
    426-432), so it is a total function. *)
Record SyncState := {
  syncCards : list CreditCard;
  categoryMeta : CardCategory -> CategoryMetaData
}.

Definition initialCategoryMeta : CardCategory -> CategoryMetaData :=
  λ _, {| lastFetch := None; loading := false |}.

(** [{ ...prev, [targetCat]: entry }]. *)
Definition withMeta (targetCat : CardCategory) (entry : CategoryMetaData)
    (prev : CardCategory -> CategoryMetaData)
  : CardCategory -> CategoryMetaData :=
  λ cat, if decide (cat = targetCat) then entry else prev cat.

(** [refreshCategory], lines 517-533, given what the awaited fetch gave
    and the value of [Date.now()] after it.  The function has no [catch]:
    when the fetch rejects, it ends after its first state update. *)
Definition refreshCategory (targetCat : CardCategory) (fetched : FetchResult)
    (now : Z) (st : SyncState) : SyncState :=
  let meta1 :=
    withMeta targetCat
      {| lastFetch := lastFetch (categoryMeta st targetCat); loading := true |}
      (categoryMeta st) in
  match fetched with
  | Rejected => {| syncCards := syncCards st; categoryMeta := meta1 |}
  | Resolved liveCards =>
      let cards1 :=
        if (0 <? length liveCards)%nat then syncCards st ++ liveCards
        else syncCards st in
      {| syncCards := cards1;
         categoryMeta :=
           withMeta targetCat {| lastFetch := Some now; loading := false |}
             meta1 |}
  end.

(** The updater of [onToggle], line 647: a copy of the set with the
    identifier removed if it was there and added if it was not. *)
Definition toggleOwned (cardId : JSString) (prev : gset JSString)
  : gset JSString :=
  if bool_decide (cardId ∈ prev) then prev ∖ {[ cardId ]}
  else {[ cardId ]} ∪ prev.

(** The wallet list, lines 540 and 692:
    [cards.filter(c => ownedIds.has(c.id))]. *)
Definition ownedCards (cards : list CreditCard) (ownedIds : gset JSString)
  : list CreditCard :=
  filter (λ c, id c ∈ ownedIds) cards.

(** The keys of a list in the order of their first occurrence. *)
Fixpoint firstOccurrences (ks : list JSString) : list JSString :=
  match ks with
  | [] => []
  | k :: rest => k :: filter (λ x, x ≠ k) (firstOccurrences rest)
  end.

(** More sample records: a static card with a travel reward, and a live
    card of the same identity without it. *)
Definition travelReward : CardReward :=
  {| type := js "Points"; value := js "6%"; cap := None; condition := None;
     description := js "Japan" |}.

Definition fooStaticTravel : CreditCard :=
  {| id := js "c1"; name := js "J Card"; bank := js "Foo"; imageUrl := None;
     link := None; rewards := [(TRAVEL_JP_KR, travelReward)];
     annualFee := {| fee := []; waiveCondition := [] |};
     tags := []; pros := None; cons := None; lastUpdated := [];
     isLive := Some false; verified := None |}.

(** The number of cards a fetch delivered: the size of the batch it
    resolved with, none when it rejected. *)
Definition batchSize (r : FetchResult) : nat :=
  match r with
  | Resolved newCards => length newCards
  | Rejected => 0
  end.

(** ** [getTimeAgo] *)

(** [Language] of [src/types.ts]. *)
Inductive Language := zh_TW | en_US.

(** [Number.prototype.toString] on an integer: its decimal digits, with a
    minus sign when negative. *)
Definition numberToString (n : Z) : JSString :=
  js (NilZero.string_of_int (Z.to_int n)).

(** The five texts, each [language === 'zh-TW' ? ... : ...]. *)
Definition notSyncedText (language : Language) : JSString :=
  match language with
  | zh_TW => [0x5C1A; 0x672A; 0x540C; 0x6B65]%N
  | en_US => js "Not synced"
  end.

Definition justNowText (language : Language) : JSString :=
  match language with
  | zh_TW => [0x525B; 0x525B]%N
  | en_US => js "Just now"
  end.

Definition minutesAgoText (language : Language) (minutes : Z) : JSString :=
  match language with
  | zh_TW => numberToString minutes ++ [0x20; 0x5206; 0x9418; 0x524D]%N
  | en_US => numberToString minutes ++ js "m ago"
  end.

Definition hoursAgoText (language : Language) (hours : Z) : JSString :=
  match language with
  | zh_TW => numberToString hours ++ [0x20; 0x5C0F; 0x6642; 0x524D]%N
  | en_US => numberToString hours ++ js "h ago"
  end.

Definition overADayText (language : Language) : JSString :=
  match language with
  | zh_TW => [0x8D85; 0x904E; 0x4E00; 0x5929]%N
  | en_US => js ">1d ago"
  end.

(** [getTimeAgo], lines 42-52, with the value of [Date.now()] as an
    argument.  Timestamps are whole numbers of milliseconds; [Math.floor] of
    a quotient is the floor division of [Z] (the double-precision quotient
    of whole numbers of this size, below 2^50, has the same floor).
    [!timestamp] holds for [null] and for 0. *)
Definition getTimeAgo (dateNow : Z) (timestamp : option Z)
    (language : Language) : JSString :=
  match timestamp with
  | None => notSyncedText language
  | Some ts =>
      if (ts =? 0)%Z then notSyncedText language
      else
        let seconds := ((dateNow - ts) / 1000)%Z in
        if (seconds <? 60)%Z then justNowText language
        else
          let minutes := (seconds / 60)%Z in
          if (minutes <? 60)%Z then minutesAgoText language minutes
          else
            let hours := (minutes / 60)%Z in
            if (hours <? 24)%Z then hoursAgoText language hours
            else overADayText language
  end.

(** ** [getCardStyle] *)

(** [s.startsWith(pat)] and [s.includes(pat)] on code units. *)
Fixpoint startsWith (pat s : JSString) : bool :=
  match pat, s with
  | [], _ => true
  | _ :: _, [] => false
  | p :: pat', c :: s' => bool_decide (p = c) && startsWith pat' s'
  end.

Fixpoint includes (pat s : JSString) : bool :=
  startsWith pat s
  || match s with
     | [] => false
     | _ :: s' => includes pat s'
     end.

(** The six fallback class lists, lines 81-88. *)
Definition gradients : list string :=
  ["bg-gradient-to-br from-indigo-500 via-purple-500 to-pink-500 text-white border border-white/20";
   "bg-gradient-to-tr from-blue-700 via-blue-800 to-gray-900 text-white border border-blue-500/20";
   "bg-gradient-to-bl from-orange-400 to-rose-400 text-white border border-white/20";
   "bg-gradient-to-r from-emerald-500 to-emerald-900 text-white border border-emerald-500/20";
   "bg-gradient-to-br from-slate-500 to-slate-800 text-white border border-slate-400/20";
   "bg-gradient-to-tr from-amber-200 via-yellow-400 to-orange-500 text-amber-950 border border-amber-200/30"
  ]%string.

(** [id.split('').reduce((acc, char) => acc + char.charCodeAt(0), 0)]. *)
Definition idHash (id : JSString) : N :=
  fold_left (λ acc char, acc + char)%N id 0%N.

(** [getCardStyle], lines 65-92.  The result is a class list; [None] is
    [undefined], what an index outside [gradients] would give. *)
Definition getCardStyle (id bank name : JSString) : option string :=
  let text := toLowerCase (bank ++ name) in
  if includes (js "cube") text then
    Some "bg-gradient-to-br from-gray-200 via-gray-300 to-slate-400 text-slate-800 border border-white/40"%string
  else if includes (js "rose") text || includes [0x73AB; 0x7470]%N text then
    Some "bg-gradient-to-bl from-rose-200 via-rose-300 to-pink-500 text-rose-950 border border-rose-200/30"%string
  else if includes (js "line") text || includes (js "j") text then
    Some "bg-gradient-to-tr from-lime-400 via-emerald-500 to-green-600 text-white border border-emerald-400/20"%string
  else if includes (js "fly") text || includes [0x65C5; 0x904A]%N text
          || includes (js "miles") text then
    Some "bg-gradient-to-b from-sky-400 via-blue-600 to-indigo-900 text-white border border-blue-400/20"%string
  else if includes (js "dawho") text || includes [0x5927; 0x6236]%N text then
    Some "bg-gradient-to-br from-neutral-800 via-neutral-900 to-black text-[#F0E68C] border border-[#F0E68C]/40"%string
  else if includes (js "u bear") text || includes (js "bear") text then
    Some "bg-gradient-to-tr from-teal-400 via-teal-600 to-cyan-700 text-white border border-teal-400/20"%string
  else if includes (js "gogo") text then
    Some "bg-gradient-to-r from-red-500 via-red-600 to-black text-white border border-red-500/20"%string
  else if includes (js "pi") text || includes [0x62CD; 0x9322; 0x5305]%N text then
    Some "bg-gradient-to-br from-blue-600 via-blue-800 to-black text-yellow-300 border border-yellow-300/30"%string
  else if includes (js "eco") text then
    Some "bg-gradient-to-bl from-green-200 via-emerald-400 to-teal-600 text-emerald-950 border border-emerald-200/30"%string
  else if includes (js "world") text || includes [0x7121; 0x9650]%N text
          || includes (js "infinity") text then
    Some "bg-gradient-to-br from-slate-700 via-slate-800 to-slate-900 text-slate-200 border border-slate-400/30"%string
  else
    let hash := idHash id in
    gradients !! N.to_nat (hash mod N.of_nat (length gradients)).

(** ** [cleanJson] of the service ([src/unnamed/part_001], lines 7-28) *)

(** White space and line terminators of ECMAScript, which [trim] removes. *)
Definition isWhiteSpace (u : N) : bool :=
  inRange 0x09%N 0x0D%N u || (u =? 0x20)%N || (u =? 0xA0)%N
  || (u =? 0x1680)%N || inRange 0x2000%N 0x200A%N u
  || (u =? 0x2028)%N || (u =? 0x2029)%N || (u =? 0x202F)%N
  || (u =? 0x205F)%N || (u =? 0x3000)%N || (u =? 0xFEFF)%N.

Fixpoint trimStart (s : JSString) : JSString :=
  match s with
  | [] => []
  | u :: rest => if isWhiteSpace u then trimStart rest else s
  end.

Definition trim (s : JSString) : JSString :=
  reverse (trimStart (reverse (trimStart s))).

(** [s.replace(/pat/g, '')] for a literal, non-empty [pat]: every match,
    found from left to right and each search resuming after the previous
    match, is removed.  [skip] counts the code units of the current match
    still to be dropped. *)
Fixpoint removeAllFrom (pat : JSString) (skip : nat) (s : JSString)
  : JSString :=
  match s with
  | [] => []
  | c :: rest =>
      match skip with
      | S skip' => removeAllFrom pat skip' rest
      | O =>
          if startsWith pat s then removeAllFrom pat (length pat - 1) rest
          else c :: removeAllFrom pat 0 rest
      end
  end.

Definition removeAll (pat s : JSString) : JSString := removeAllFrom pat 0 s.

(** [s.indexOf(c)] and [s.lastIndexOf(c)] for a single code unit; -1 when
    absent. *)
Fixpoint indexOf (c : N) (s : JSString) : Z :=
  match s with
  | [] => -1
  | u :: rest =>
      if decide (u = c) then 0
      else let i := indexOf c rest in if (i =? -1)%Z then -1 else (i + 1)%Z
  end.

Fixpoint lastIndexOf (c : N) (s : JSString) : Z :=
  match s with
  | [] => -1
  | u :: rest =>
      let i := lastIndexOf c rest in
      if (i =? -1)%Z then (if decide (u = c) then 0 else -1)%Z
      else (i + 1)%Z
  end.

(** [s.substring(indexStart, indexEnd)]: both indices are clamped to the
    string, and swapped when the first exceeds the second. *)
Definition substring (indexStart indexEnd : Z) (s : JSString) : JSString :=
  let len := Z.of_nat (length s) in
  let finalStart := Z.min (Z.max indexStart 0) len in
  let finalEnd := Z.min (Z.max indexEnd 0) len in
  let from := Z.min finalStart finalEnd in
  let to := Z.max finalStart finalEnd in
  take (Z.to_nat (to - from)) (drop (Z.to_nat from) s).

(** The code fence of three backticks. *)
Definition fence : JSString := [0x60; 0x60; 0x60]%N.

(** Line 8: the text without its code fences, trimmed. *)
Definition stripFences (text : JSString) : JSString :=
  trim (removeAll fence (removeAll (fence ++ js "json") text)).

(** [cleanJson], lines 7-28. *)
Definition cleanJson (text : JSString) : JSString :=
  let cleaned := stripFences text in
  let firstOpenBrace := indexOf 0x7B%N cleaned in
  let firstOpenBracket := indexOf 0x5B%N cleaned in
  let '(startIndex, endIndex) :=
    if negb (firstOpenBracket =? -1)%Z
       && ((firstOpenBracket <? firstOpenBrace)%Z || (firstOpenBrace =? -1)%Z)
    then (firstOpenBracket, (lastIndexOf 0x5D%N cleaned + 1)%Z)
    else if negb (firstOpenBrace =? -1)%Z
    then (firstOpenBrace, (lastIndexOf 0x7D%N cleaned + 1)%Z)
    else ((-1)%Z, (-1)%Z) in
  if negb (startIndex =? -1)%Z && negb (endIndex =? -1)%Z then
    substring startIndex endIndex cleaned
  else cleaned.

(** ** [generateDeterministicId] of the service
       ([src/unnamed/part_001], lines 30-36) *)

(** [toLowerCase] as [generateDeterministicId] needs it: the table of
    [lowerUnit] with the fullwidth capitals U+FF21 to U+FF3A added.  Their
    lower-case images, U+FF41 to U+FF5A, are the only images outside
    [lowerUnit]'s table that the width folding below can bring into the
    class of the key. *)
Definition lowerUnitWide (u : N) : JSString :=
  if inRange 0xFF21%N 0xFF3A%N u then [(u + 0x20)%N] else lowerUnit u.

Definition toLowerCaseWide (s : JSString) : JSString := s ≫= lowerUnitWide.

(** The class of the first [replace]: fullwidth capitals, small letters and
    digits. *)
Definition isFullwidthAlnum (u : N) : bool :=
  inRange 0xFF21%N 0xFF3A%N u || inRange 0xFF41%N 0xFF5A%N u
  || inRange 0xFF10%N 0xFF19%N u.

(** [s.replace(/[fullwidth]/g, s => String.fromCharCode(s.charCodeAt(0)
    - 0xFEE0))]. *)
Definition toHalfwidth (s : JSString) : JSString :=
  (λ u, if isFullwidthAlnum u then (u - 0xFEE0)%N else u) <$> s.

Definition generateDeterministicId (bank name : JSString) : JSString :=
  let raw :=
    replaceOutsideKeyClass (toHalfwidth (toLowerCaseWide (bank ++ name))) in
  js "live_" ++ raw.

(** * Properties *)

(** ** [Map] operations *)

Section JSMapFacts.
Context {V : Type}.
Implicit Types (m : JSMap.t V) (k : JSString) (v : V).

Lemma has_is_Some k m : JSMap.has k m = true ↔ is_Some (JSMap.get k m).
Proof.
  induction m as [|[k' v'] m IH]; simpl.
  - split; [done | intros [? ?]; done].
  - case_decide; [split; eauto | done].
Qed.

Lemma has_false_None k m : JSMap.has k m = false ↔ JSMap.get k m = None.
Proof.
  rewrite <- not_true_iff_false, has_is_Some, eq_None_not_Some. done.
Qed.

Lemma get_None_keys k m : JSMap.get k m = None ↔ k ∉ JSMap.keys m.
Proof.
  unfold JSMap.keys. induction m as [|[k' v'] m IH]; simpl.
  - split; [intros _; apply not_elem_of_nil | done].
  - rewrite not_elem_of_cons. case_decide; subst.
    + split; [done | intros [? _]; done].
    + rewrite IH. split.
      * intros ?. split; [congruence | assumption].
      * intros [_ ?]. assumption.
Qed.

Lemma get_Some_elem k v m : JSMap.get k m = Some v → (k, v) ∈ m.
Proof.
  induction m as [|[k' v'] m IH]; simpl; [done|].
  case_decide; subst.
  - intros [= ->]. left.
  - intros ?. right. auto.
Qed.

Lemma elem_get_Some k v m :
  NoDup (JSMap.keys m) → (k, v) ∈ m → JSMap.get k m = Some v.
Proof.
  unfold JSMap.keys. induction m as [|[k' v'] m IH]; simpl.
  - intros _ H. inversion H.
  - rewrite NoDup_cons. intros [Hk Hnd] Hin.
    apply elem_of_cons in Hin as [[= -> ->] | Hin].
    + by rewrite decide_True.
    + rewrite decide_False; [auto|].
      intros ->. apply Hk. apply list_elem_of_fmap. by exists (k, v).
Qed.

Lemma get_set_eq k v m : JSMap.get k (JSMap.set k v m) = Some v.
Proof.
  induction m as [|[k' v'] m IH]; simpl.
  - by rewrite decide_True.
  - case_decide; simpl; [by rewrite decide_True | by rewrite decide_False].
Qed.

Lemma get_set_ne k k' v m :
  k ≠ k' → JSMap.get k' (JSMap.set k v m) = JSMap.get k' m.
Proof.
  intros Hne. induction m as [|[k0 v0] m IH]; simpl.
  - by rewrite decide_False.
  - case_decide; simpl; subst.
    + by rewrite !decide_False.
    + by rewrite IH.
Qed.

Lemma set_absent k v m :
  JSMap.get k m = None → JSMap.set k v m = m ++ [(k, v)].
Proof.
  induction m as [|[k' v'] m IH]; simpl; [done|].
  case_decide; [done|]. intros ?. by rewrite IH.
Qed.

Lemma keys_set_present k v m :
  is_Some (JSMap.get k m) → JSMap.keys (JSMap.set k v m) = JSMap.keys m.
Proof.
  unfold JSMap.keys. induction m as [|[k' v'] m IH]; simpl.
  - intros [? ?]; done.
  - case_decide; simpl; [done|]. intros ?. f_equal. auto.
Qed.

Lemma elem_set k v k' v' m :
  (k', v') ∈ JSMap.set k v m → (k', v') = (k, v) ∨ (k', v') ∈ m.
Proof.
  induction m as [|[k0 v0] m IH]; simpl.
  - intros ?%list_elem_of_singleton. by left.
  - case_decide; subst; rewrite !elem_of_cons.
    + intros [?|?]; auto.
    + intros [?|?]; [auto|]. destruct (IH H0); auto.
Qed.

End JSMapFacts.

(** ** The scan of [deduplicateCards] *)

Lemma scanCards_snoc l c : scanCards (l ++ [c]) = dedupStep (scanCards l) c.
Proof. unfold scanCards. by rewrite fold_left_app. Qed.

(** The three things a step can do. *)
Lemma dedupStep_cases m c :
  (JSMap.get (cardKey c) m = None ∧ dedupStep m c = m ++ [(cardKey c, c)])
  ∨ (∃ e, JSMap.get (cardKey c) m = Some e ∧ live c
          ∧ dedupStep m c = JSMap.set (cardKey c) c m)
  ∨ (∃ e, JSMap.get (cardKey c) m = Some e ∧ ¬ live c ∧ dedupStep m c = m).
Proof.
  unfold dedupStep, live. destruct (JSMap.get (cardKey c) m) as [e|] eqn:Hg.
  - right. destruct (truthy (isLive c)); simpl.
    + left. exists e. by destruct (truthy (isLive e)).
    + right. by exists e.
  - left. split; [done|]. by apply set_absent.
Qed.

(** Case analysis on what the step from [m] with [c] does. *)
Ltac step_cases m c :=
  let e := fresh "e" in
  let Hget := fresh "Hget" in
  let Hlive := fresh "Hlive" in
  let Hstep := fresh "Hstep" in
  destruct (dedupStep_cases m c)
    as [[Hget Hstep] | [(e & Hget & Hlive & Hstep) | (e & Hget & Hlive & Hstep)]].

(** A static record leaves a map that holds its key as it is. *)
Lemma dedupStep_static m c e :
  JSMap.get (cardKey c) m = Some e → ¬ live c → dedupStep m c = m.
Proof. intros Hg Hc. step_cases m c; [congruence | done | done]. Qed.

Lemma get_snoc {V : Type} k k' (v : V) (m : JSMap.t V) :
  JSMap.get k (m ++ [(k', v)]) =
  match JSMap.get k m with
  | Some x => Some x
  | None => if decide (k' = k) then Some v else None
  end.
Proof.
  induction m as [|[k0 v0] m IH]; simpl; [reflexivity|].
  by destruct (decide (k0 = k)).
Qed.

Lemma get_dedupStep k m c :
  JSMap.get k (dedupStep m c) =
  if decide (cardKey c = k) then
    match JSMap.get k m with
    | Some e => if decide (live c) then Some c else Some e
    | None => Some c
    end
  else JSMap.get k m.
Proof.
  step_cases m c; rewrite Hstep; rename Hget into Hg.
  - rewrite get_snoc. case_decide; subst.
    + by rewrite Hg.
    + by destruct (JSMap.get k m).
  - case_decide; subst.
    + rewrite get_set_eq, Hg. by rewrite decide_True.
    + by rewrite get_set_ne.
  - case_decide; subst; [|done]. rewrite Hg. by rewrite decide_False.
Qed.

Lemma keys_dedupStep m c :
  JSMap.keys (dedupStep m c) =
  if JSMap.has (cardKey c) m then JSMap.keys m
  else JSMap.keys m ++ [cardKey c].
Proof.
  step_cases m c; rewrite Hstep; rename Hget into Hg.
  - apply has_false_None in Hg as ->. unfold JSMap.keys. by rewrite fmap_app.
  - assert (JSMap.has (cardKey c) m = true) as -> by (apply has_is_Some; eauto).
    apply keys_set_present; eauto.
  - by assert (JSMap.has (cardKey c) m = true) as -> by (apply has_is_Some; eauto).
Qed.

Lemma keyed_dedupStep m c : keyed m → keyed (dedupStep m c).
Proof.
  unfold keyed. rewrite !Forall_forall. intros Hm [k x] Hin.
  step_cases m c; rewrite Hstep in Hin.
  - apply elem_of_app in Hin as [Hin | ->%list_elem_of_singleton]; [by apply Hm | done].
  - apply elem_set in Hin as [[= -> ->] | Hin]; [done | by apply Hm].
  - by apply Hm.
Qed.

Lemma NoDup_keys_dedupStep m c :
  NoDup (JSMap.keys m) → NoDup (JSMap.keys (dedupStep m c)).
Proof.
  intros Hnd. rewrite keys_dedupStep.
  destruct (JSMap.has (cardKey c) m) eqn:Hh; [done|].
  apply has_false_None, get_None_keys in Hh.
  apply NoDup_app. split_and!; [done | | apply NoDup_singleton].
  intros k Hk ->%list_elem_of_singleton. done.
Qed.

Lemma scanCards_keyed l : keyed (scanCards l).
Proof.
  induction l as [|c l IH] using rev_ind; [constructor|].
  rewrite scanCards_snoc. by apply keyed_dedupStep.
Qed.

Lemma scanCards_NoDup l : NoDup (JSMap.keys (scanCards l)).
Proof.
  induction l as [|c l IH] using rev_ind; [constructor|].
  rewrite scanCards_snoc. by apply NoDup_keys_dedupStep.
Qed.

Lemma keyed_keys m : keyed m → cardKey <$> JSMap.values m = JSMap.keys m.
Proof.
  unfold keyed, JSMap.values, JSMap.keys. induction 1 as [|[k c] m Hk _ IH]; [done|].
  simpl in *. rewrite Hk. f_equal. exact IH.
Qed.

(** The map after a scan, read off the list. *)
Lemma withKey_snoc k l c :
  withKey k (l ++ [c]) = withKey k l ++ (if decide (cardKey c = k) then [c] else []).
Proof.
  unfold withKey. rewrite filter_app, filter_cons, filter_nil. done.
Qed.

Lemma winner_None k l : winner k l = None ↔ withKey k l = [].
Proof.
  unfold winner. split.
  - destruct (last _); [done|]. apply head_None.
  - intros ->. done.
Qed.

Lemma winner_snoc k l c :
  winner k (l ++ [c]) =
  if decide (cardKey c = k) then
    match winner k l with
    | Some e => if decide (live c) then Some c else Some e
    | None => Some c
    end
  else winner k l.
Proof.
  case_decide as Hk.
  - destruct (winner k l) as [e|] eqn:Hw.
    + unfold winner in *. rewrite withKey_snoc, decide_True, filter_app by done.
      case_decide as Hl.
      * rewrite filter_cons_True, filter_nil by done. by rewrite last_snoc.
      * rewrite filter_cons_False, filter_nil, app_nil_r by done.
        destruct (last _); [done|].
        destruct (withKey k l); [done|]. done.
    + apply winner_None in Hw. unfold winner.
      rewrite withKey_snoc, decide_True, Hw by done. simpl.
      rewrite filter_cons. by case_decide.
  - unfold winner. by rewrite withKey_snoc, decide_False, app_nil_r.
Qed.

Lemma get_scanCards k l : JSMap.get k (scanCards l) = winner k l.
Proof.
  induction l as [|c l IH] using rev_ind; [done|].
  by rewrite scanCards_snoc, get_dedupStep, winner_snoc, IH.
Qed.

Lemma elem_of_deduplicateCards c l :
  c ∈ deduplicateCards l ↔ winner (cardKey c) l = Some c.
Proof.
  unfold deduplicateCards, JSMap.values. rewrite <- get_scanCards. split.
  - intros ([k c'] & -> & Hin)%list_elem_of_fmap. simpl.
    pose proof (scanCards_keyed l) as Hk.
    unfold keyed in Hk. rewrite Forall_forall in Hk.
    specialize (Hk _ Hin). simpl in Hk. rewrite Hk.
    apply elem_get_Some; [apply scanCards_NoDup | done].
  - intros Hg%get_Some_elem. apply list_elem_of_fmap. by exists (cardKey c, c).
Qed.

Lemma winner_elem_of k l w : winner k l = Some w → w ∈ l ∧ cardKey w = k.
Proof.
  unfold winner. destruct (last _) as [x|] eqn:Hlast.
  - intros [= ->]. apply last_Some_elem_of in Hlast.
    apply list_elem_of_filter in Hlast as [_ Hin].
    apply list_elem_of_filter in Hin as [? ?]. done.
  - intros Hh%head_Some_elem_of. apply list_elem_of_filter in Hh as [? ?]. done.
Qed.

Lemma winner_live k l c :
  c ∈ l → cardKey c = k → live c → ∃ w, winner k l = Some w ∧ live w.
Proof.
  intros Hin Hk Hl. unfold winner.
  destruct (last (filter live (withKey k l))) as [w|] eqn:Hlast.
  - exists w. split; [done|]. apply last_Some_elem_of in Hlast.
    by apply list_elem_of_filter in Hlast as [? _].
  - apply last_None in Hlast. exfalso.
    eapply (filter_nil_not_elem_of live); [exact Hlast | exact Hl |].
    apply list_elem_of_filter. done.
Qed.

Lemma winner_static k l :
  (∀ c, c ∈ l → cardKey c = k → ¬ live c) → winner k l = head (withKey k l).
Proof.
  intros Hst. unfold winner.
  destruct (last (filter live (withKey k l))) as [w|] eqn:Hlast; [|done].
  apply last_Some_elem_of in Hlast.
  apply list_elem_of_filter in Hlast as [Hl Hin].
  apply list_elem_of_filter in Hin as [Hk Hin]. by destruct (Hst w).
Qed.

Lemma withKey_unique l c :
  NoDup (cardKey <$> l) → c ∈ l → withKey (cardKey c) l = [c].
Proof.
  unfold withKey. induction l as [|x l IH]; simpl; [by intros _ ?%elem_of_nil|].
  rewrite NoDup_cons. intros [Hx Hnd] [<- | Hin]%elem_of_cons.
  - rewrite filter_cons_True by done. f_equal.
    destruct (filter _ l) as [|y ?] eqn:Hf; [done|]. exfalso.
    assert (y ∈ filter (λ c0, cardKey c0 = cardKey c) l) as Hy by (rewrite Hf; left).
    apply list_elem_of_filter in Hy as [Hky Hy]. apply Hx. rewrite <- Hky.
    by apply list_elem_of_fmap_2.
  - rewrite filter_cons_False; [auto|].
    intros Hk. apply Hx. rewrite Hk. by apply list_elem_of_fmap_2.
Qed.

Lemma deduplicateCards_keys l :
  cardKey <$> deduplicateCards l = JSMap.keys (scanCards l).
Proof. apply keyed_keys, scanCards_keyed. Qed.

Lemma deduplicateCards_NoDup l : NoDup (cardKey <$> deduplicateCards l).
Proof. rewrite deduplicateCards_keys. apply scanCards_NoDup. Qed.

Lemma deduplicateCards_subset l c : c ∈ deduplicateCards l → c ∈ l.
Proof. intros Hw%elem_of_deduplicateCards. by apply winner_elem_of in Hw as [? _]. Qed.

(** The output holds exactly one record for the key of a winner. *)
Lemma withKey_deduplicateCards k l w :
  winner k l = Some w → withKey k (deduplicateCards l) = [w].
Proof.
  intros Hw. destruct (winner_elem_of _ _ _ Hw) as [_ <-].
  apply withKey_unique; [apply deduplicateCards_NoDup|].
  by apply elem_of_deduplicateCards.
Qed.

Lemma deduplicateCards_pair_live c1 c2 :
  cardKey c1 = cardKey c2 → live c2 → deduplicateCards [c1; c2] = [c2].
Proof.
  unfold live. intros Hk Hl. unfold deduplicateCards, scanCards. simpl.
  unfold dedupStep at 2. simpl. unfold dedupStep. simpl.
  rewrite Hk, decide_True, Hl by done. simpl.
  destruct (truthy (isLive c1)); simpl; by rewrite decide_True.
Qed.

(** ** The rules of the scan *)

(** C1: [deduplicateCards] returns the values of the map built by one scan of
    the input, and at every step of that scan, from the map [scanCards l]
    after a prefix [l] to the map after the next record [c] with key [k]:
    no other key changes; a first record for [k] is stored; a live [c]
    replaces a stored record that is not live; a live [c] replaces a stored
    live record; a static [c] is discarded when the stored record is live. *)
Theorem scan_rules (l : list CreditCard) (c : CreditCard) :
  (∀ x, x ∈ deduplicateCards l ↔ ∃ k, JSMap.get k (scanCards l) = Some x)
  ∧ (∀ k', k' ≠ cardKey c →
       JSMap.get k' (scanCards (l ++ [c])) = JSMap.get k' (scanCards l))
  ∧ (JSMap.get (cardKey c) (scanCards l) = None →
       JSMap.get (cardKey c) (scanCards (l ++ [c])) = Some c)
  ∧ (∀ e, JSMap.get (cardKey c) (scanCards l) = Some e → live c → ¬ live e →
       JSMap.get (cardKey c) (scanCards (l ++ [c])) = Some c)
  ∧ (∀ e, JSMap.get (cardKey c) (scanCards l) = Some e → live c → live e →
       JSMap.get (cardKey c) (scanCards (l ++ [c])) = Some c)
  ∧ (∀ e, JSMap.get (cardKey c) (scanCards l) = Some e → ¬ live c → live e →
       scanCards (l ++ [c]) = scanCards l).
Proof.
  rewrite scanCards_snoc. split_and!.
  - intros x. rewrite elem_of_deduplicateCards, <- get_scanCards. split; [eauto|].
    intros [k Hk]. pose proof Hk as Hin%get_Some_elem.
    pose proof (scanCards_keyed l) as Hkeyed. unfold keyed in Hkeyed.
    rewrite Forall_forall in Hkeyed. specialize (Hkeyed _ Hin). simpl in Hkeyed.
    by rewrite Hkeyed.
  - intros k' Hne. by rewrite get_dedupStep, decide_False.
  - intros Hg. by rewrite get_dedupStep, decide_True, Hg.
  - intros e Hg Hl _. by rewrite get_dedupStep, decide_True, Hg, decide_True.
  - intros e Hg Hl _. by rewrite get_dedupStep, decide_True, Hg, decide_True.
  - intros e Hg Hl _. by apply (dedupStep_static _ _ e).
Qed.

(** The rules at work on a live record that follows a static one. *)
Lemma scan_rules_witness :
  JSMap.get (cardKey fooLive) (scanCards ([fooStatic] ++ [fooLive]))
  = Some fooLive.
Proof.
  refine (proj1 (proj2 (proj2 (proj2 (scan_rules [fooStatic] fooLive))))
            fooStatic _ _ _).
  - reflexivity.
  - reflexivity.
  - unfold live. simpl. discriminate.
Defined.

(** ** Live records against static ones *)

Lemma deduplicateCards_live_iff l w :
  w ∈ deduplicateCards l →
  live w ↔ ∃ c, c ∈ l ∧ cardKey c = cardKey w ∧ live c.
Proof.
  intros Hw. split.
  - intros Hl. exists w. split_and!; [by apply deduplicateCards_subset | done..].
  - intros (c & Hin & Hk & Hl).
    destruct (winner_live _ _ _ Hin Hk Hl) as (w0 & Hw0 & Hl0).
    apply elem_of_deduplicateCards in Hw. congruence.
Qed.

(** C2: when a key occurs in a live and in a static record of the input, the
    output of every reordering of the input holds exactly one record for that
    key, and it is live; a step of the scan leaves the map as it is when the
    record is static and the stored one is live; and the static-then-live
    pair [Foo / J Card] yields the live record alone. *)
Theorem live_beats_static :
  (∀ (l l' : list CreditCard) (k : JSString) (cl cs : CreditCard),
     cl ∈ l → cs ∈ l → cardKey cl = k → cardKey cs = k →
     live cl → ¬ live cs → l ≡ₚ l' →
     ∃ w, withKey k (deduplicateCards l') = [w] ∧ live w)
  ∧ (∀ (l : list CreditCard) (c e : CreditCard),
       JSMap.get (cardKey c) (scanCards l) = Some e → live e → ¬ live c →
       scanCards (l ++ [c]) = scanCards l)
  ∧ (∀ c1 c2 : CreditCard,
       bank c1 = js "Foo" → name c1 = js "J Card" → isLive c1 = Some false →
       bank c2 = js "Foo" → name c2 = js "J Card" → isLive c2 = Some true →
       deduplicateCards [c1; c2] = [c2]).
Proof.
  split_and!.
  - intros l l' k cl cs Hcl _ Hk _ Hl _ Hperm.
    rewrite Hperm in Hcl.
    destruct (winner_live _ _ _ Hcl Hk Hl) as (w & Hw & Hlw).
    exists w. split; [by apply withKey_deduplicateCards | done].
  - intros l c e Hg _ Hc. rewrite scanCards_snoc.
    by apply (dedupStep_static _ _ e).
  - intros c1 c2 Hb1 Hn1 _ Hb2 Hn2 Hl2. apply deduplicateCards_pair_live.
    + unfold cardKey. by rewrite Hb1, Hn1, Hb2, Hn2.
    + unfold live. by rewrite Hl2.
Qed.

(** The live record wins whether it comes first or last. *)
Lemma live_beats_static_witness :
  (∃ w, withKey (cardKey fooLive) (deduplicateCards [fooLive; fooStatic]) = [w]
        ∧ live w)
  ∧ deduplicateCards [fooStatic; fooLive] = [fooLive].
Proof.
  split.
  - refine (proj1 live_beats_static [fooStatic; fooLive] [fooLive; fooStatic]
              (cardKey fooLive) fooLive fooStatic _ _ _ _ _ _ _).
    + apply elem_of_cons. right. apply elem_of_cons. left. reflexivity.
    + apply elem_of_cons. left. reflexivity.
    + reflexivity.
    + reflexivity.
    + reflexivity.
    + unfold live. simpl. discriminate.
    + apply perm_swap.
  - refine (proj2 (proj2 live_beats_static) fooStatic fooLive _ _ _ _ _ _);
      reflexivity.
Defined.

(** ** Static records among themselves *)

(** C9: when every record of the input with key [k] is static, the one
    output record for [k] is the first of them; and a step of the scan leaves
    the map as it is when both the record and the stored one are static. *)
Theorem first_static_wins :
  (∀ (l : list CreditCard) (k : JSString) (f : CreditCard),
     (∀ c, c ∈ l → cardKey c = k → ¬ live c) →
     head (withKey k l) = Some f →
     withKey k (deduplicateCards l) = [f])
  ∧ (∀ (l : list CreditCard) (c e : CreditCard),
       JSMap.get (cardKey c) (scanCards l) = Some e → ¬ live e → ¬ live c →
       scanCards (l ++ [c]) = scanCards l).
Proof.
  split.
  - intros l k f Hst Hf. apply withKey_deduplicateCards.
    by rewrite winner_static.
  - intros l c e Hg _ Hc. rewrite scanCards_snoc.
    by apply (dedupStep_static _ _ e).
Qed.

(** A record without [isLive] ahead of one with [isLive: false]. *)
Lemma first_static_wins_witness :
  withKey (cardKey fooLegacy) (deduplicateCards [fooLegacy; fooStatic])
  = [fooLegacy].
Proof.
  refine (proj1 first_static_wins [fooLegacy; fooStatic] (cardKey fooLegacy)
            fooLegacy _ _).
  - intros c Hc _. unfold live.
    apply elem_of_cons in Hc as [-> | Hc]; [simpl; discriminate|].
    apply elem_of_cons in Hc as [-> | Hc]; [simpl; discriminate|].
    by apply elem_of_nil in Hc.
  - reflexivity.
Defined.

(** ** One record per key *)

(** C5: the keys of the output are pairwise different, so the output holds
    at most one record for any key, and it is no longer than the list of
    distinct keys of the input. *)
Theorem one_record_per_key (l : list CreditCard) :
  NoDup (cardKey <$> deduplicateCards l)
  ∧ (∀ k, length (withKey k (deduplicateCards l)) ≤ 1)
  ∧ length (deduplicateCards l) ≤ length (distinctKeys l).
Proof.
  split_and!.
  - apply deduplicateCards_NoDup.
  - intros k.
    destruct (withKey k (deduplicateCards l)) as [|c rest] eqn:Hf; simpl; [lia|].
    assert (c ∈ withKey k (deduplicateCards l)) as Hc by (rewrite Hf; left).
    apply list_elem_of_filter in Hc as [<- Hc].
    rewrite (withKey_unique _ _ (deduplicateCards_NoDup l) Hc) in Hf.
    injection Hf as <-. simpl. lia.
  - rewrite <- (length_fmap cardKey). apply submseteq_length.
    apply NoDup_submseteq; [apply deduplicateCards_NoDup|].
    intros k (c & -> & Hc)%list_elem_of_fmap. unfold distinctKeys.
    apply elem_of_remove_dups, list_elem_of_fmap_2.
    by apply deduplicateCards_subset.
Qed.

(** ** Idempotence *)

Lemma scanCards_NoDup_id l :
  NoDup (cardKey <$> l) → scanCards l = (λ c, (cardKey c, c)) <$> l.
Proof.
  induction l as [|c l IH] using rev_ind; [done|].
  rewrite fmap_app, NoDup_app. intros (Hnd & Hdisj & _).
  rewrite scanCards_snoc, fmap_app, <- IH by done. simpl.
  step_cases (scanCards l) c; rename Hget into Hg; [by rewrite Hstep | exfalso..].
  all: apply get_Some_elem in Hg; rewrite IH in Hg by done.
  all: apply list_elem_of_fmap in Hg as (c' & [= Hk ->] & Hin).
  all: eapply Hdisj; [by apply list_elem_of_fmap_2 | rewrite <- Hk; left].
Qed.

Lemma deduplicateCards_NoDup_id l :
  NoDup (cardKey <$> l) → deduplicateCards l = l.
Proof.
  intros Hnd. unfold deduplicateCards, JSMap.values.
  rewrite scanCards_NoDup_id by done. rewrite <- list_fmap_compose.
  apply list_fmap_id.
Qed.

(** C6: de-duplicating the output of [deduplicateCards] gives that output
    back, as the same list. *)
Theorem deduplicateCards_idempotent (l : list CreditCard) :
  deduplicateCards (deduplicateCards l) = deduplicateCards l.
Proof. apply deduplicateCards_NoDup_id, deduplicateCards_NoDup. Qed.

(** ** Reordering the input *)

Lemma deduplicateCards_keys_iff l k :
  k ∈ cardKey <$> deduplicateCards l ↔ k ∈ cardKey <$> l.
Proof.
  split.
  - intros (c & -> & Hc)%list_elem_of_fmap.
    by apply list_elem_of_fmap_2, deduplicateCards_subset.
  - intros (c & -> & Hc)%list_elem_of_fmap.
    destruct (winner (cardKey c) l) as [w|] eqn:Hw.
    + destruct (winner_elem_of _ _ _ Hw) as [_ <-].
      apply list_elem_of_fmap_2, elem_of_deduplicateCards.
      destruct (winner_elem_of _ _ _ Hw) as [_ Hk]. by rewrite Hk.
    + apply winner_None in Hw. exfalso.
      by eapply (filter_nil_not_elem_of (λ x, cardKey x = cardKey c));
        [exact Hw | | exact Hc].
Qed.

Lemma tieFree_member l c :
  tieFree l →
  c ∈ deduplicateCards l ↔
  c ∈ l ∧ (live c ∨ ∀ c', c' ∈ l → cardKey c' = cardKey c → ¬ live c').
Proof.
  intros Hties. split.
  - intros Hc. split; [by apply deduplicateCards_subset|].
    destruct (decide (live c)) as [|Hn]; [by left | right].
    intros c' Hin Hk Hl. apply Hn.
    apply (deduplicateCards_live_iff l c Hc). eauto.
  - intros [Hin Hcase].
    assert (cardKey c ∈ cardKey <$> deduplicateCards l) as Hk
      by by apply deduplicateCards_keys_iff, list_elem_of_fmap_2.
    apply list_elem_of_fmap in Hk as (w & Hk & Hw).
    enough (w = c) by by subst.
    apply Hties; [by apply deduplicateCards_subset | done.. |].
    destruct Hcase as [Hl | Hst].
    + left. split; [|done].
      apply (deduplicateCards_live_iff l w Hw). exists c. by rewrite Hk.
    + right. intros c0 Hc0 Hk0. apply Hst; [done | congruence].
Qed.

Lemma tieFree_Permutation l l' : l ≡ₚ l' → tieFree l → tieFree l'.
Proof.
  intros Hperm Hties c1 c2 H1 H2 Hk Hcase. rewrite <- Hperm in H1, H2.
  apply Hties; [done.. |]. destruct Hcase as [? | Hst]; [by left | right].
  intros c Hc. apply Hst. by rewrite <- Hperm.
Qed.

(** A record that some order of the input outputs. *)
Lemma deciding_record_output l c :
  c ∈ l →
  live c ∨ (∀ c', c' ∈ l → cardKey c' = cardKey c → ¬ live c') →
  ∃ l1, l ≡ₚ l1 ∧ c ∈ deduplicateCards l1.
Proof.
  intros [k Hk]%elem_of_Permutation [Hl | Hst].
  - exists (k ++ [c]). split.
    + rewrite Hk. apply Permutation_cons_append.
    + apply elem_of_deduplicateCards. rewrite winner_snoc, decide_True by done.
      destruct (winner (cardKey c) k); [by rewrite decide_True | done].
  - exists (c :: k). split; [done|].
    apply elem_of_deduplicateCards. rewrite winner_static.
    + unfold withKey. by rewrite filter_cons_True.
    + intros c' Hc'. apply Hst. by rewrite Hk.
Qed.

Lemma winner_cases k l c :
  winner k l = Some c
  ↔ last (filter live (withKey k l)) = Some c
    ∨ (filter live (withKey k l) = [] ∧ head (withKey k l) = Some c).
Proof.
  unfold winner. destruct (last (filter live (withKey k l))) as [w|] eqn:Hlast.
  - split; [by left|]. intros [? | [Hnil _]]; [done|].
    rewrite Hnil in Hlast. done.
  - apply last_None in Hlast. split; [by right|].
    intros [? | [_ ?]]; done.
Qed.

(** C3, the claim as stated fails: two static records with one key and
    different identifiers; each order of the two outputs a different
    record. *)
Lemma permutation_changes_records :
  [fooStatic; fooStaticB] ≡ₚ [fooStaticB; fooStatic]
  ∧ deduplicateCards [fooStatic; fooStaticB] = [fooStatic]
  ∧ deduplicateCards [fooStaticB; fooStatic] = [fooStaticB]
  ∧ fooStatic ≠ fooStaticB.
Proof.
  split_and!; [apply perm_swap | reflexivity | reflexivity | discriminate].
Qed.

(** C3, amended: for a reordering [l'] of the input [l], the outputs have the
    same set of canonical keys, and records of the two outputs with the same
    key have the same provenance.  The record output for a key is the last
    live record of that key in the order of the list, or, when the key has
    no live record, the first record of that key.  Hence every reordering of
    [l] outputs the same set of records exactly when the live records of
    each key are one and the same record and, for each key without live
    record, the records of that key are one and the same record. *)
Theorem deduplicateCards_permutation (l l' : list CreditCard) :
  l ≡ₚ l' →
  (∀ k, k ∈ cardKey <$> deduplicateCards l ↔ k ∈ cardKey <$> deduplicateCards l')
  ∧ (∀ w w', w ∈ deduplicateCards l → w' ∈ deduplicateCards l' →
       cardKey w = cardKey w' → (live w ↔ live w'))
  ∧ (∀ c, c ∈ deduplicateCards l'
          ↔ last (filter live (withKey (cardKey c) l')) = Some c
            ∨ (filter live (withKey (cardKey c) l') = []
               ∧ head (withKey (cardKey c) l') = Some c))
  ∧ (tieFree l → ∀ c, c ∈ deduplicateCards l ↔ c ∈ deduplicateCards l')
  ∧ (tieFree l
     ↔ ∀ l1, l ≡ₚ l1 → ∀ c, c ∈ deduplicateCards l ↔ c ∈ deduplicateCards l1).
Proof.
  assert (∀ l1, tieFree l → l ≡ₚ l1 →
            ∀ c, c ∈ deduplicateCards l ↔ c ∈ deduplicateCards l1) as Hsame.
  { intros l1 Hties Hperm1 c.
    rewrite (tieFree_member l c Hties).
    rewrite (tieFree_member l1 c (tieFree_Permutation l l1 Hperm1 Hties)).
    by setoid_rewrite Hperm1. }
  intros Hperm. split_and!.
  - intros k. rewrite !deduplicateCards_keys_iff. by rewrite Hperm.
  - intros w w' Hw Hw' Hk.
    rewrite (deduplicateCards_live_iff l w Hw), (deduplicateCards_live_iff l' w' Hw').
    rewrite Hk. by setoid_rewrite Hperm.
  - intros c. rewrite elem_of_deduplicateCards. apply winner_cases.
  - intros Hties. by apply Hsame.
  - split; [intros Hties l1; by apply Hsame|].
    intros Hall c1 c2 H1 H2 Hk Hcase.
    assert (c1 ∈ deduplicateCards l ∧ c2 ∈ deduplicateCards l) as [Ho1 Ho2].
    { split.
      - destruct (deciding_record_output l c1 H1) as (l1 & Hp1 & Hin1);
          [destruct Hcase as [[? _] | ?]; [by left | by right]|].
        by apply (Hall l1 Hp1).
      - destruct (deciding_record_output l c2 H2) as (l2 & Hp2 & Hin2).
        + destruct Hcase as [[_ ?] | Hst]; [by left | right].
          intros c' Hc' Hk'. apply Hst; [done | congruence].
        + by apply (Hall l2 Hp2). }
    pose proof (withKey_unique _ _ (deduplicateCards_NoDup l) Ho1) as Hu1.
    pose proof (withKey_unique _ _ (deduplicateCards_NoDup l) Ho2) as Hu2.
    rewrite Hk, Hu2 in Hu1. by injection Hu1.
Qed.

(** Two different static records beside a live one of the same key: every
    order outputs the live one. *)
Lemma deduplicateCards_permutation_witness :
  fooLive ∈ deduplicateCards [fooStatic; fooStaticB; fooLive]
  ↔ fooLive ∈ deduplicateCards [fooStaticB; fooLive; fooStatic].
Proof.
  refine (proj1 (proj2 (proj2 (proj2 (deduplicateCards_permutation
            [fooStatic; fooStaticB; fooLive] [fooStaticB; fooLive; fooStatic]
            _)))) _ fooLive).
  - change ([fooStatic] ++ [fooStaticB; fooLive]
            ≡ₚ [fooStaticB; fooLive] ++ [fooStatic]).
    apply Permutation_app_comm.
  - intros c1 c2 H1 H2 _ [[L1 L2] | Hst].
    + unfold live in *.
      apply elem_of_cons in H1 as [-> | H1]; [simpl in L1; discriminate|].
      apply elem_of_cons in H1 as [-> | H1]; [simpl in L1; discriminate|].
      apply elem_of_cons in H1 as [-> | H1]; [|by apply elem_of_nil in H1].
      apply elem_of_cons in H2 as [-> | H2]; [simpl in L2; discriminate|].
      apply elem_of_cons in H2 as [-> | H2]; [simpl in L2; discriminate|].
      apply elem_of_cons in H2 as [-> | H2]; [done | by apply elem_of_nil in H2].
    + exfalso. apply (Hst fooLive).
      * do 2 right. left.
      * apply elem_of_cons in H1 as [-> | H1]; [reflexivity|].
        apply elem_of_cons in H1 as [-> | H1]; [reflexivity|].
        apply elem_of_cons in H1 as [-> | H1]; [reflexivity|].
        by apply elem_of_nil in H1.
      * reflexivity.
Defined.

(** ** The canonical key *)

Lemma replaceOutsideKeyClass_filter s :
  replaceOutsideKeyClass s = filter (λ u, inKeyClass u = true) s.
Proof.
  induction s as [|u s IH]; simpl; [done|].
  destruct (inKeyClass u) eqn:Hu; simpl.
  - rewrite filter_cons_True by done. by rewrite IH.
  - rewrite filter_cons_False by (rewrite Hu; done). done.
Qed.

Lemma normalizeKey_app s1 s2 :
  normalizeKey (s1 ++ s2) = normalizeKey s1 ++ normalizeKey s2.
Proof.
  unfold normalizeKey, toLowerCase.
  by rewrite bind_app, !replaceOutsideKeyClass_filter, filter_app.
Qed.

Lemma normalizeKey_stripped u : stripped u → normalizeKey [u] = [].
Proof.
  unfold stripped, normalizeKey, toLowerCase. simpl. rewrite app_nil_r.
  rewrite replaceOutsideKeyClass_filter.
  induction 1 as [|v vs Hv _ IH]; [done|].
  rewrite filter_cons_False by (rewrite Hv; done). done.
Qed.

Lemma deduplicateCards_pair_same_key c1 c2 :
  cardKey c1 = cardKey c2 → length (deduplicateCards [c1; c2]) = 1.
Proof.
  intros Hk. unfold deduplicateCards, scanCards. simpl.
  unfold dedupStep at 2. simpl. unfold dedupStep. simpl.
  rewrite Hk, decide_True by done.
  destruct (truthy (isLive c2) && negb (truthy (isLive c1)));
    [simpl; by rewrite decide_True|].
  destruct (truthy (isLive c2) && truthy (isLive c1)); simpl;
    [by rewrite decide_True | done].
Qed.

(** C7: the canonical key of a record is the lower-cased concatenation of
    bank and name with the code units outside the class removed, so it
    consists of members of the class only (the class being a-z, 0-9 and
    U+4E00 to U+9FA5, and a Basic Latin capital being lower-cased by adding
    32); a code unit the normalisation
    strips may be inserted anywhere in the identity without changing the key;
    two records with one key collapse to one output record; and identities
    [Foo-Bar] and [FooBar] both have the key [foobar]. *)
Theorem canonical_key :
  (∀ c, cardKey c
        = filter (λ u, inKeyClass u = true) (toLowerCase (bank c ++ name c)))
  ∧ (∀ u, inKeyClass u = true
          ↔ (0x61 ≤ u ≤ 0x7A ∨ 0x30 ≤ u ≤ 0x39 ∨ 0x4E00 ≤ u ≤ 0x9FA5)%N)
  ∧ (∀ u, (0x41 ≤ u ≤ 0x5A)%N → toLowerCase [u] = [(u + 0x20)%N])
  ∧ (∀ c, Forall (λ u, inKeyClass u = true) (cardKey c))
  ∧ (∀ s1 s2 u, stripped u → normalizeKey (s1 ++ u :: s2) = normalizeKey (s1 ++ s2))
  ∧ (∀ c1 c2, cardKey c1 = cardKey c2 → length (deduplicateCards [c1; c2]) = 1)
  ∧ (∀ c1 c2, bank c1 ++ name c1 = js "Foo-Bar" →
              bank c2 ++ name c2 = js "FooBar" →
              cardKey c1 = js "foobar" ∧ cardKey c2 = js "foobar"
              ∧ length (deduplicateCards [c1; c2]) = 1).
Proof.
  split_and!.
  - intros c. apply replaceOutsideKeyClass_filter.
  - intros u. unfold inKeyClass, inRange.
    rewrite !orb_true_iff, !andb_true_iff, !N.leb_le. tauto.
  - intros u [Hlo Hhi]. unfold toLowerCase, lowerUnit, inRange. simpl.
    apply N.leb_le in Hlo, Hhi. by rewrite Hlo, Hhi.
  - intros c. unfold cardKey, normalizeKey.
    rewrite replaceOutsideKeyClass_filter. apply Forall_forall.
    by intros u [? _]%list_elem_of_filter.
  - intros s1 s2 u Hu.
    rewrite (normalizeKey_app s1 (u :: s2)).
    rewrite (normalizeKey_app [u] s2 : normalizeKey (u :: s2) = _).
    by rewrite normalizeKey_stripped, normalizeKey_app.
  - apply deduplicateCards_pair_same_key.
  - intros c1 c2 H1 H2.
    assert (cardKey c1 = js "foobar") as K1 by (unfold cardKey; by rewrite H1).
    assert (cardKey c2 = js "foobar") as K2 by (unfold cardKey; by rewrite H2).
    split_and!; [done.. |]. apply deduplicateCards_pair_same_key. congruence.
Qed.

(** The hyphen is stripped, and the two spellings collapse. *)
Lemma canonical_key_witness :
  normalizeKey (js "Foo" ++ 0x2D%N :: js "Bar") = normalizeKey (js "Foo" ++ js "Bar")
  ∧ length (deduplicateCards
              [plainCard (js "a") (js "Foo-") (js "Bar") None;
               plainCard (js "b") (js "Foo") (js "Bar") (Some true)]) = 1.
Proof.
  split.
  - refine (proj1 (proj2 (proj2 (proj2 (proj2 canonical_key))))
              (js "Foo") (js "Bar") 0x2D%N _).
    unfold stripped. simpl. repeat constructor.
  - refine (proj2 (proj2 (proj2 (proj2 (proj2 (proj2 (proj2 (proj2
              canonical_key)))))
              (plainCard (js "a") (js "Foo-") (js "Bar") None)
              (plainCard (js "b") (js "Foo") (js "Bar") (Some true)) _ _))).
    + reflexivity.
    + reflexivity.
Defined.

(** ** The imperative reading: no write, no throw *)

Section ImpFacts.
Context (h : Imp.heap).
Implicit Types (refs : JSMap.t Imp.loc) (recs : JSMap.t CreditCard).

Lemma mapPointsTo_get k refs recs :
  mapPointsTo h refs recs →
  match JSMap.get k refs, JSMap.get k recs with
  | Some r, Some c => h !! r = Some (Imp.Card c)
  | None, None => True
  | _, _ => False
  end.
Proof.
  induction 1 as [|[k1 r] [k2 c] refs recs [Hk Hr] _ IH]; simpl in *; [done|].
  subst k2. by destruct (decide (k1 = k)).
Qed.

Lemma mapPointsTo_has k refs recs :
  mapPointsTo h refs recs →
  JSMap.has k refs = bool_decide (is_Some (JSMap.get k recs)).
Proof.
  intros Hrel%(mapPointsTo_get k).
  destruct (JSMap.has k refs) eqn:Hh.
  - apply has_is_Some in Hh as [r Hr]. rewrite Hr in Hrel.
    destruct (JSMap.get k recs); [|done]. by rewrite bool_decide_eq_true_2.
  - apply has_false_None in Hh. rewrite Hh in Hrel.
    destruct (JSMap.get k recs); [done|].
    rewrite bool_decide_eq_false_2; [done|]. by intros [? ?].
Qed.

Lemma mapPointsTo_set k r c refs recs :
  mapPointsTo h refs recs → h !! r = Some (Imp.Card c) →
  mapPointsTo h (JSMap.set k r refs) (JSMap.set k c recs).
Proof.
  intros Hrel Hr.
  induction Hrel as [|[k1 r1] [k2 c2] refs recs [Hk Hr1] Hrel IH]; simpl in *.
  - by constructor.
  - subst k2. destruct (decide (k1 = k)); by constructor.
Qed.

Lemma mapPointsTo_values refs recs :
  mapPointsTo h refs recs →
  Imp.pointsTo h (JSMap.values refs) (JSMap.values recs).
Proof.
  unfold Imp.pointsTo, JSMap.values.
  induction 1 as [|[k1 r] [k2 c] refs recs [Hk Hr] _ IH]; simpl in *;
    by constructor.
Qed.

Lemma bind_run {A B : Type} (m : Imp.M A) (k : A → Imp.M B) a h' :
  m h = Imp.Return a h' → (m ≫= k) h = k a h'.
Proof. unfold mbind, Imp.M_bind. by intros ->. Qed.

Lemma fmap_run {A B : Type} (f : A → B) (m : Imp.M A) a h' :
  m h = Imp.Return a h' → (f <$> m) h = Imp.Return (f a) h'.
Proof. unfold fmap, Imp.M_fmap. by intros ->. Qed.

Lemma field_run {A : Type} (f : CreditCard → A) r c :
  h !! r = Some (Imp.Card c) → Imp.field f r h = Imp.Return (f c) h.
Proof. unfold Imp.field. by intros ->. Qed.

Lemma isLiveOf_run r c :
  h !! r = Some (Imp.Card c) →
  Imp.isLiveOf (Some r) h = Imp.Return (truthy (isLive c)) h.
Proof.
  intros Hr. unfold Imp.isLiveOf.
  rewrite (bind_run _ _ r h) by done.
  by rewrite (bind_run _ _ (isLive c) h) by by apply field_run.
Qed.

Lemma cardLiveAnd_run r c rhs b :
  h !! r = Some (Imp.Card c) → rhs h = Imp.Return b h →
  Imp.cardLiveAnd r rhs h = Imp.Return (truthy (isLive c) && b) h.
Proof.
  intros Hr Hrhs. unfold Imp.cardLiveAnd.
  rewrite (bind_run _ _ (isLive c) h) by by apply field_run.
  by destruct (truthy (isLive c)).
Qed.

(** One call of the [forEach] callback reads only, does not throw, and
    follows [dedupStep] on the records. *)
Lemma Imp_dedupStep_run refs recs r c :
  mapPointsTo h refs recs → h !! r = Some (Imp.Card c) →
  ∃ refs', Imp.dedupStep refs r h = Imp.Return refs' h
           ∧ mapPointsTo h refs' (dedupStep recs c).
Proof.
  intros Hrel Hr.
  pose proof (mapPointsTo_get (cardKey c) _ _ Hrel) as Hget.
  pose proof (mapPointsTo_has (cardKey c) _ _ Hrel) as Hhas.
  unfold Imp.dedupStep, dedupStep.
  rewrite (bind_run _ _ (bank c) h) by by apply field_run.
  rewrite (bind_run _ _ (name c) h) by by apply field_run.
  fold (cardKey c). cbn zeta. rewrite Hhas.
  destruct (JSMap.get (cardKey c) recs) as [e|] eqn:Hg.
  - rewrite bool_decide_eq_true_2 by eauto.
    destruct (JSMap.get (cardKey c) refs) as [re|]; [|done].
    pose proof (isLiveOf_run re e Hget) as Hlive.
    rewrite (bind_run _ _ (truthy (isLive c) && negb (truthy (isLive e))) h)
      by (apply cardLiveAnd_run; [done | by apply fmap_run]).
    destruct (truthy (isLive c) && negb (truthy (isLive e)));
      [eexists; split; [done|]; by apply mapPointsTo_set|].
    rewrite (bind_run _ _ (truthy (isLive c) && truthy (isLive e)) h)
      by by apply cardLiveAnd_run.
    destruct (truthy (isLive c) && truthy (isLive e));
      eexists; (split; [done|]); [by apply mapPointsTo_set | done].
  - rewrite bool_decide_eq_false_2 by (by intros [? ?]).
    eexists; split; [done|]. by apply mapPointsTo_set.
Qed.

Lemma Imp_forEach_run elems cards refs recs :
  Imp.pointsTo h elems cards → mapPointsTo h refs recs →
  ∃ refs', Imp.forEach Imp.dedupStep elems refs h = Imp.Return refs' h
           ∧ mapPointsTo h refs' (fold_left dedupStep cards recs).
Proof.
  unfold Imp.pointsTo. intros Hpts. revert refs recs.
  induction Hpts as [|r c elems cards Hr _ IH]; intros refs recs Hrel; simpl.
  - by exists refs.
  - destruct (Imp_dedupStep_run _ _ _ _ Hrel Hr) as (refs1 & Hrun & Hrel1).
    rewrite (bind_run _ _ refs1 h) by done. by apply IH.
Qed.

End ImpFacts.

(** C8: on a heap in which [cards] is an array of card objects, the call
    returns without throwing; the heap it leaves is the heap it found plus
    one new array, so every object that was there (each input record and the
    input array) is as it was; the new array holds the records that
    [deduplicateCards] computes.  An identity string all of whose code units
    are stripped has the empty key, and a record with such an identity is
    de-duplicated like any other. *)
Theorem deduplicateCards_pure_total :
  (∀ (h : Imp.heap) (cards : Imp.loc) (elems : list Imp.loc)
     (recs : list CreditCard),
     h !! cards = Some (Imp.Array elems) → Imp.pointsTo h elems recs →
     ∃ (out : Imp.loc) (outs : list Imp.loc) (h' : Imp.heap),
       Imp.deduplicateCards cards h = Imp.Return out h'
       ∧ h !! out = None
       ∧ h' = <[out := Imp.Array outs]> h
       ∧ (∀ l o, h !! l = Some o → h' !! l = Some o)
       ∧ Imp.pointsTo h' outs (deduplicateCards recs))
  ∧ (∀ s, Forall stripped s → normalizeKey s = [])
  ∧ (∀ c, Forall stripped (bank c ++ name c) →
          cardKey c = [] ∧ deduplicateCards [c] = [c]).
Proof.
  assert (∀ s, Forall stripped s → normalizeKey s = []) as Hempty.
  { induction 1 as [|u s Hu _ IH]; [done|].
    rewrite (normalizeKey_app [u] s : normalizeKey (u :: s) = _).
    by rewrite normalizeKey_stripped, IH. }
  split_and!.
  - intros h cards elems recs Hcards Hpts.
    destruct (Imp_forEach_run h elems recs [] [] Hpts) as (refs & Hrun & Hrel);
      [constructor|].
    set (out := fresh (dom h)).
    assert (h !! out = None) as Hfresh
      by (apply not_elem_of_dom; apply is_fresh).
    exists out, (JSMap.values refs), (<[out := Imp.Array (JSMap.values refs)]> h).
    split_and!; [| done | done | |].
    + unfold Imp.deduplicateCards.
      rewrite (bind_run h _ _ elems h) by (unfold Imp.elements; by rewrite Hcards).
      by rewrite (bind_run h _ _ refs h) by done.
    + intros l o Hl. rewrite lookup_insert_ne; [done|]. intros <-. congruence.
    + apply mapPointsTo_values in Hrel. unfold Imp.pointsTo in *.
      eapply Forall2_impl; [exact Hrel|]. simpl. intros r c Hr.
      rewrite lookup_insert_ne; [done|]. intros <-. congruence.
  - exact Hempty.
  - intros c Hs. split; [by apply Hempty | done].
Qed.

Lemma deduplicateCards_pure_total_witness :
  ∃ (out : Imp.loc) (outs : list Imp.loc) (h' : Imp.heap),
    Imp.deduplicateCards 3%positive sampleHeap = Imp.Return out h'
    ∧ sampleHeap !! out = None
    ∧ h' = <[out := Imp.Array outs]> sampleHeap
    ∧ (∀ l o, sampleHeap !! l = Some o → h' !! l = Some o)
    ∧ Imp.pointsTo h' outs (deduplicateCards [fooStatic; fooLive]).
Proof.
  refine (proj1 deduplicateCards_pure_total sampleHeap 3%positive
            [1%positive; 2%positive] [fooStatic; fooLive] _ _).
  - reflexivity.
  - repeat constructor.
Defined.

(** ** The merge of a fetched batch *)

Lemma filterUnseen_keepFirstById seen l :
  filterUnseen seen l = filter (λ c, id c ∉ seen) (keepFirstById l).
Proof.
  revert seen. induction l as [|c l IH]; intros seen; simpl; [done|].
  rewrite IH, filter_cons, list_filter_filter.
  assert (filter (λ x, id x ∉ ({[id c]} ∪ seen)) (keepFirstById l)
          = filter (λ x, (id x ∉ seen) ∧ id x ≠ id c) (keepFirstById l)) as ->.
  { apply list_filter_iff. intros x.
    rewrite not_elem_of_union, not_elem_of_singleton. tauto. }
  destruct (decide (id c ∈ seen)) as [Hin | Hnin].
  - rewrite bool_decide_eq_true_2 by done. simpl. by rewrite decide_False by tauto.
  - rewrite bool_decide_eq_false_2 by done. simpl. by rewrite decide_True.
Qed.

Lemma mergeBatch_keepFirstById newCards prev :
  mergeBatch newCards prev = keepFirstById (newCards ++ prev).
Proof.
  unfold mergeBatch. rewrite filterUnseen_keepFirstById.
  induction (keepFirstById _) as [|c l IH]; [done|].
  rewrite filter_cons_True by set_solver. by rewrite IH.
Qed.

Lemma keepFirstById_app a b :
  keepFirstById (a ++ b)
  = keepFirstById a ++ filter (λ c, id c ∉ id <$> a) (keepFirstById b).
Proof.
  induction a as [|x a IH]; simpl.
  - induction (keepFirstById b) as [|c l IHl]; [done|].
    rewrite filter_cons_True by apply not_elem_of_nil. by rewrite <- IHl.
  - rewrite IH, filter_app, list_filter_filter. do 2 f_equal.
    apply list_filter_iff. intros c. rewrite not_elem_of_cons. tauto.
Qed.

Lemma elem_of_keepFirstById c l :
  c ∈ keepFirstById l ↔ firstWithId (id c) l = Some c.
Proof.
  unfold firstWithId. induction l as [|x l IH]; simpl.
  - split; [by intros ?%elem_of_nil | done].
  - rewrite elem_of_cons, list_elem_of_filter, IH, filter_cons.
    destruct (decide (id x = id c)) as [Heq | Hne]; simpl.
    + split; [intros [-> | [Hne _]]; [done | congruence] | intros [= ->]; by left].
    + split.
      * intros [-> | [_ ?]]; done.
      * intros ?. right. split; [congruence | done].
Qed.

Lemma keepFirstById_NoDup l : NoDup (id <$> keepFirstById l).
Proof.
  induction l as [|c l IH]; simpl; [constructor|].
  apply NoDup_cons. split.
  - intros (x & Hx & [Hne _]%list_elem_of_filter)%list_elem_of_fmap. congruence.
  - clear -IH. induction (keepFirstById l) as [|x k IHk]; [constructor|].
    simpl in IH. apply NoDup_cons in IH as [Hx Hnd].
    rewrite filter_cons. case_decide; [|by apply IHk].
    simpl. apply NoDup_cons. split; [|by apply IHk].
    intros (y & Hy & [_ Hin]%list_elem_of_filter)%list_elem_of_fmap.
    apply Hx. rewrite Hy. by apply list_elem_of_fmap_2.
Qed.

Lemma keepFirstById_NoDup_id l : NoDup (id <$> l) → keepFirstById l = l.
Proof.
  induction l as [|c l IH]; simpl; [done|].
  rewrite NoDup_cons. intros [Hc Hnd]. rewrite IH by done. f_equal.
  clear IH Hnd. induction l as [|x l IHl]; [done|].
  simpl in Hc. apply not_elem_of_cons in Hc as [Hne Hc].
  rewrite filter_cons_True by congruence. by rewrite IHl.
Qed.

(** C10, the claim as stated fails: the state holds two cards with one
    identifier, the batch holds neither; the second of the two stored cards
    is absent from the merged list. *)
Lemma stored_duplicate_dropped :
  fooStaticDup ∈ [fooStatic; fooStaticDup]
  ∧ (id fooStaticDup ∉ id <$> [fooLive])
  ∧ mergeBatch [fooLive] [fooStatic; fooStaticDup] = [fooLive; fooStatic]
  ∧ fooStaticDup ∉ mergeBatch [fooLive] [fooStatic; fooStaticDup].
Proof.
  assert (mergeBatch [fooLive] [fooStatic; fooStaticDup] = [fooLive; fooStatic])
    as Hm by (by vm_compute).
  split_and!.
  - apply elem_of_cons. right. apply elem_of_cons. by left.
  - intros [Heq | Hin%elem_of_nil]%elem_of_cons; [discriminate | done].
  - exact Hm.
  - rewrite Hm. intros [Heq | Hin]%elem_of_cons; [discriminate|].
    apply elem_of_cons in Hin as [Heq | Hin%elem_of_nil]; [discriminate | done].
Qed.

(** C10, amended: the merged list is the fetched cards followed by the
    previous cards, with every card whose identifier occurred earlier in that
    sequence removed.  It is the first fetched card of each identifier, then
    the first stored card of each identifier that is not in the batch; no
    identifier repeats in it; a stored card that is the first of the state
    with its identifier, which does not occur in the batch, is in it; a card
    of it whose identifier occurs in the batch is the first fetched card with
    that identifier; and when neither the batch nor the state repeats an
    identifier it is the batch followed by the stored cards whose identifier
    is not in the batch. *)
Theorem mergeBatch_first_by_id (newCards prev : list CreditCard) :
  mergeBatch newCards prev = keepFirstById (newCards ++ prev)
  ∧ mergeBatch newCards prev
    = keepFirstById newCards
      ++ filter (λ c, id c ∉ id <$> newCards) (keepFirstById prev)
  ∧ NoDup (id <$> mergeBatch newCards prev)
  ∧ (∀ c, firstWithId (id c) prev = Some c → id c ∉ id <$> newCards →
          c ∈ mergeBatch newCards prev)
  ∧ (∀ c, c ∈ mergeBatch newCards prev → id c ∈ id <$> newCards →
          firstWithId (id c) newCards = Some c)
  ∧ (NoDup (id <$> newCards) → NoDup (id <$> prev) →
     mergeBatch newCards prev
     = newCards ++ filter (λ c, id c ∉ id <$> newCards) prev).
Proof.
  rewrite mergeBatch_keepFirstById. split_and!.
  - done.
  - apply keepFirstById_app.
  - apply keepFirstById_NoDup.
  - intros c Hfirst Hnew. rewrite keepFirstById_app. apply elem_of_app. right.
    apply list_elem_of_filter. split; [done|]. by apply elem_of_keepFirstById.
  - intros c Hc Hnew. rewrite keepFirstById_app in Hc.
    apply elem_of_app in Hc as [Hc | [Hn _]%list_elem_of_filter]; [|done].
    by apply elem_of_keepFirstById.
  - intros Hn Hp. by rewrite keepFirstById_app, !keepFirstById_NoDup_id.
Qed.

Lemma mergeBatch_first_by_id_witness :
  fooStatic ∈ mergeBatch [fooLive] [fooStatic; fooStaticDup].
Proof.
  refine (proj1 (proj2 (proj2 (proj2
            (mergeBatch_first_by_id [fooLive] [fooStatic; fooStaticDup]))))
            fooStatic _ _).
  - reflexivity.
  - intros [Heq | Hin%elem_of_nil]%elem_of_cons; [discriminate | done].
Defined.

(** ** The discovery loop *)

(** The loop breaks at once or never: its condition reads the list captured
    at mount. *)
Lemma discoveryLoop_all_issued capturedCards service queries st :
  length capturedCards < 100 →
  issuedQuery <$> (discoveryLoop capturedCards service queries st).2 = queries.
Proof.
  intros Hlt%Nat.leb_gt. revert st.
  induction queries as [|q queries IH]; intros st; [done|].
  cbn [discoveryLoop]. rewrite Hlt.
  match goal with
  | |- context [discoveryLoop capturedCards service queries ?s] =>
      specialize (IH s); destruct (discoveryLoop capturedCards service queries s)
  end.
  simpl in *. f_equal. exact IH.
Qed.

Lemma discoveryLoop_none_issued capturedCards service queries st :
  100 ≤ length capturedCards →
  discoveryLoop capturedCards service queries st = (st, []).
Proof.
  intros Hge%Nat.leb_le. destruct queries as [|q queries]; [done|].
  cbn [discoveryLoop]. by rewrite Hge.
Qed.

Lemma discoveryEffect_all_issued service currentYear currentMonth st :
  length (cards st) < 100 →
  issuedQuery <$> (discoveryEffect false service currentYear currentMonth st).2
  = DISCOVERY_QUERIES currentYear currentMonth.
Proof.
  intros Hlt. unfold discoveryEffect, runDiscovery.
  assert ((100 <? length (cards st)) = false) as -> by (apply Nat.ltb_ge; lia).
  cbn [orb].
  pose proof (discoveryLoop_all_issued (cards st) service
                (DISCOVERY_QUERIES currentYear currentMonth) st Hlt) as Hall.
  by destruct (discoveryLoop _ _ _ _).
Qed.

(** C4, on the sample mount state of 99 cards and the sample service: the
    loop condition reads the list captured at mount, 99 cards long, at every
    round, so all ten queries are issued, in the order of the list; the
    first batch brings the state to 102 cards, and the nine calls after it
    are made from states of 102 to 126 cards; the loop ends with 129
    cards. *)
Theorem discovery_past_threshold :
  let '(started, st, issued) :=
    discoveryEffect false sampleService 2025 1 sampleState in
  started = true
  ∧ issuedQuery <$> issued = DISCOVERY_QUERIES 2025 1
  ∧ (λ i, length (cards (issuedFrom i))) <$> issued
    = [99; 102; 105; 108; 111; 114; 117; 120; 123; 126]
  ∧ length (cards st) = 129
  ∧ discoveredCount st = 30.
Proof. by vm_compute. Qed.

(** * Further properties *)

(** ** Order and composition of [deduplicateCards] *)

Lemma firstOccurrences_elem k ks : k ∈ firstOccurrences ks ↔ k ∈ ks.
Proof.
  induction ks as [|x ks IH]; simpl; [done|].
  rewrite !elem_of_cons, list_elem_of_filter, IH.
  destruct (decide (k = x)); [by split; left | tauto].
Qed.

Lemma firstOccurrences_snoc ks k :
  firstOccurrences (ks ++ [k])
  = if decide (k ∈ ks) then firstOccurrences ks else firstOccurrences ks ++ [k].
Proof.
  induction ks as [|x ks IH]; cbn [firstOccurrences app].
  - destruct (decide (k ∈ [])) as [Hin%elem_of_nil | _]; done.
  - rewrite IH. destruct (decide (k ∈ ks)) as [Hin | Hnin].
    + rewrite decide_True; [done | by right].
    + rewrite filter_app, filter_cons, filter_nil.
      destruct (decide (k = x)) as [-> | Hne].
      * rewrite decide_False by (intros ?; done).
        rewrite decide_True by left. by rewrite app_nil_r.
      * rewrite decide_True by done.
        rewrite decide_False; [done|]. by intros [?|?]%elem_of_cons.
Qed.

Lemma firstOccurrences_app a b :
  firstOccurrences (a ++ b)
  = firstOccurrences a ++ filter (λ k, k ∉ a) (firstOccurrences b).
Proof.
  induction a as [|x a IH]; simpl.
  - induction (firstOccurrences b) as [|k l IHl]; [done|].
    rewrite filter_cons_True by apply not_elem_of_nil. by rewrite <- IHl.
  - rewrite IH, filter_app, list_filter_filter. do 2 f_equal.
    apply list_filter_iff. intros k. rewrite not_elem_of_cons. tauto.
Qed.

Lemma firstOccurrences_NoDup ks : NoDup ks → firstOccurrences ks = ks.
Proof.
  induction ks as [|k ks IH]; simpl; [done|].
  rewrite NoDup_cons. intros [Hk Hnd]. rewrite IH by done. f_equal.
  clear IH Hnd. induction ks as [|x ks IHks]; [done|].
  apply not_elem_of_cons in Hk as [Hne Hk].
  rewrite filter_cons_True by congruence. by rewrite IHks.
Qed.

Lemma scanCards_keys l :
  JSMap.keys (scanCards l) = firstOccurrences (cardKey <$> l).
Proof.
  induction l as [|c l IH] using rev_ind; [done|].
  rewrite scanCards_snoc, keys_dedupStep, fmap_app, IH. simpl.
  rewrite firstOccurrences_snoc.
  destruct (JSMap.has (cardKey c) (scanCards l)) eqn:Hhas.
  - rewrite decide_True; [done|].
    apply has_is_Some in Hhas as [e He]. apply get_Some_elem in He.
    apply firstOccurrences_elem. rewrite <- IH. unfold JSMap.keys.
    apply list_elem_of_fmap. by exists (cardKey c, e).
  - rewrite decide_False; [done|].
    apply has_false_None, get_None_keys in Hhas.
    by rewrite IH, firstOccurrences_elem in Hhas.
Qed.

(** Two maps with the same keys in the same order and the same lookups are
    the same map. *)
Lemma JSMap_ext {V : Type} (m1 m2 : JSMap.t V) :
  JSMap.keys m1 = JSMap.keys m2 → NoDup (JSMap.keys m1) →
  (∀ k, JSMap.get k m1 = JSMap.get k m2) → m1 = m2.
Proof.
  unfold JSMap.keys. revert m2.
  induction m1 as [|[k1 v1] m1 IH]; intros [|[k2 v2] m2]; simpl; try done.
  intros [= <- Hkeys] [Hk Hnd]%NoDup_cons Hget.
  pose proof (Hget k1) as H1. simpl in H1. rewrite !decide_True in H1 by done.
  injection H1 as <-. f_equal. apply IH; [done..|].
  intros k. specialize (Hget k). simpl in Hget.
  destruct (decide (k1 = k)) as [<- | Hne]; [|done].
  assert (JSMap.get k1 m1 = None) as ->
    by (by apply get_None_keys).
  symmetry. apply get_None_keys. unfold JSMap.keys.
  change (m1.*1 = m2.*1) in Hkeys. by rewrite <- Hkeys.
Qed.

Lemma deduplicateCards_ext l l' :
  firstOccurrences (cardKey <$> l) = firstOccurrences (cardKey <$> l') →
  (∀ k, winner k l = winner k l') →
  deduplicateCards l = deduplicateCards l'.
Proof.
  intros Hkeys Hwin. unfold deduplicateCards. f_equal.
  apply JSMap_ext; [by rewrite !scanCards_keys | apply scanCards_NoDup |].
  intros k. by rewrite !get_scanCards.
Qed.

Lemma withKey_app k a b : withKey k (a ++ b) = withKey k a ++ withKey k b.
Proof. apply filter_app. Qed.

Lemma winner_app k a b :
  winner k (a ++ b) =
  match last (filter live (withKey k b)) with
  | Some w => Some w
  | None =>
      match winner k a with
      | Some w => Some w
      | None => head (withKey k b)
      end
  end.
Proof.
  unfold winner. rewrite withKey_app, filter_app, last_app.
  destruct (last (filter live (withKey k b))) as [w|]; [done|].
  destruct (last (filter live (withKey k a))) as [w|] eqn:Hlast.
  - done.
  - rewrite head_app. by destruct (head (withKey k a)).
Qed.

(** The records of the output with a given key. *)
Lemma withKey_deduplicateCards_winner k l :
  withKey k (deduplicateCards l) = option_list (winner k l).
Proof.
  destruct (winner k l) as [w|] eqn:Hw; simpl.
  - by apply withKey_deduplicateCards.
  - destruct (withKey k (deduplicateCards l)) as [|c rest] eqn:Hf; [done|].
    assert (c ∈ withKey k (deduplicateCards l)) as Hc by (rewrite Hf; left).
    apply list_elem_of_filter in Hc as [<- Hc].
    apply elem_of_deduplicateCards in Hc. congruence.
Qed.

Lemma winner_deduplicateCards k l : winner k (deduplicateCards l) = winner k l.
Proof.
  unfold winner at 1. rewrite withKey_deduplicateCards_winner.
  destruct (winner k l) as [w|]; simpl; [|done].
  rewrite filter_cons, filter_nil. by case_decide.
Qed.

Lemma deduplicateCards_first_keys (l : list CreditCard) :
  cardKey <$> deduplicateCards l = firstOccurrences (cardKey <$> l).
Proof. rewrite deduplicateCards_keys. apply scanCards_keys. Qed.

(** X1: the output lists the canonical keys of the input in the order in
    which each key first occurs; a record that replaces a stored one takes
    the place of the stored one. *)
Theorem deduplicateCards_order (l : list CreditCard) :
  cardKey <$> deduplicateCards l = firstOccurrences (cardKey <$> l)
  ∧ (∀ c e, JSMap.get (cardKey c) (scanCards l) = Some e →
       JSMap.keys (scanCards (l ++ [c])) = JSMap.keys (scanCards l)).
Proof.
  split; [apply deduplicateCards_first_keys|].
  intros c e Hget. rewrite scanCards_snoc, keys_dedupStep.
  by assert (JSMap.has (cardKey c) (scanCards l) = true) as ->
    by (apply has_is_Some; eauto).
Qed.

Lemma keyed_rebuild (m : JSMap.t CreditCard) :
  keyed m → (λ c, (cardKey c, c)) <$> JSMap.values m = m.
Proof.
  unfold keyed, JSMap.values. induction 1 as [|[k c] m Hk _ IH]; [done|].
  simpl in *. rewrite Hk. f_equal. exact IH.
Qed.

Lemma scanCards_deduplicateCards l :
  scanCards (deduplicateCards l) = scanCards l.
Proof.
  rewrite scanCards_NoDup_id by apply deduplicateCards_NoDup.
  apply keyed_rebuild, scanCards_keyed.
Qed.

(** X2: de-duplication is incremental: de-duplicating a prefix or a suffix
    of the input first does not change the result. *)
Theorem deduplicateCards_incremental (l1 l2 : list CreditCard) :
  deduplicateCards (deduplicateCards l1 ++ l2) = deduplicateCards (l1 ++ l2)
  ∧ deduplicateCards (l1 ++ deduplicateCards l2) = deduplicateCards (l1 ++ l2).
Proof.
  split.
  - unfold deduplicateCards at 1 3. unfold scanCards.
    rewrite !fold_left_app. fold (scanCards (deduplicateCards l1)).
    fold (scanCards l1). by rewrite scanCards_deduplicateCards.
  - apply deduplicateCards_ext.
    + rewrite !fmap_app, !firstOccurrences_app, deduplicateCards_first_keys.
      by rewrite (firstOccurrences_NoDup (firstOccurrences _))
        by (rewrite <- deduplicateCards_first_keys; apply deduplicateCards_NoDup).
    + intros k. rewrite !winner_app, withKey_deduplicateCards_winner.
      destruct (winner k l2) as [w|] eqn:Hw; simpl.
      * unfold winner in Hw. rewrite filter_cons, filter_nil.
        destruct (last (filter live (withKey k l2))) as [w'|] eqn:Hlast.
        -- injection Hw as ->. apply last_Some_elem_of in Hlast.
           apply list_elem_of_filter in Hlast as [Hl _].
           by rewrite decide_True.
        -- rewrite decide_False; [by rewrite Hw|]. intros Hl.
           apply head_Some_elem_of in Hw. apply last_None in Hlast.
           by eapply (filter_nil_not_elem_of live).
      * apply winner_None in Hw. by rewrite Hw.
Qed.

Lemma filter_none {A : Type} (P : A → Prop) `{∀ x, Decision (P x)} l :
  (∀ x, x ∈ l → ¬ P x) → filter P l = [].
Proof.
  induction l as [|x l IH]; [done|]. intros Hall.
  rewrite filter_cons_False by (apply Hall; left).
  apply IH. intros y Hy. apply Hall. by right.
Qed.

Lemma firstOccurrences_double ks :
  firstOccurrences (ks ++ ks) = firstOccurrences ks.
Proof.
  rewrite firstOccurrences_app.
  rewrite (filter_none (λ k, k ∉ ks) (firstOccurrences ks)); [apply app_nil_r|].
  intros k Hk Hn. apply Hn. by apply (firstOccurrences_elem k ks).
Qed.

Lemma deduplicateCards_app_twice (l b : list CreditCard) :
  deduplicateCards (l ++ b ++ b) = deduplicateCards (l ++ b).
Proof.
  apply deduplicateCards_ext.
  - rewrite !fmap_app, (firstOccurrences_app (cardKey <$> l)).
    rewrite firstOccurrences_double. by rewrite <- firstOccurrences_app.
  - intros k. rewrite app_assoc, winner_app, (winner_app k l b).
    destruct (last (filter live (withKey k b))); [done|].
    destruct (winner k l); [done|]. by destruct (head (withKey k b)).
Qed.

(** X3: appending again the batch that ends the list does not change the
    result. *)
Theorem deduplicateCards_reappend (l b : list CreditCard) :
  deduplicateCards (l ++ b ++ b) = deduplicateCards (l ++ b).
Proof. apply deduplicateCards_app_twice. Qed.

(** X4: every record of the output is a record of the input, every key of
    the input is the key of a record of the output, and the output is empty
    only for the empty input. *)
Theorem deduplicateCards_covers (l : list CreditCard) :
  (∀ c, c ∈ deduplicateCards l → c ∈ l)
  ∧ (∀ c, c ∈ l → ∃ w, w ∈ deduplicateCards l ∧ cardKey w = cardKey c)
  ∧ (deduplicateCards l = [] ↔ l = []).
Proof.
  assert (∀ c, c ∈ l → ∃ w, w ∈ deduplicateCards l ∧ cardKey w = cardKey c)
    as Hcov.
  { intros c Hc.
    assert (cardKey c ∈ cardKey <$> deduplicateCards l) as Hk
      by by apply deduplicateCards_keys_iff, list_elem_of_fmap_2.
    apply list_elem_of_fmap in Hk as (w & Hk & Hw). eauto. }
  split_and!; [apply deduplicateCards_subset | exact Hcov |].
  split; [|by intros ->].
  intros Hnil. destruct l as [|c l]; [done|]. exfalso.
  destruct (Hcov c) as (w & Hw & _); [left|].
  rewrite Hnil in Hw. by apply elem_of_nil in Hw.
Qed.

(** ** The displayed list *)

Lemma displayedCards_filtered cards cat :
  cat ≠ ALL →
  displayedCards cards cat = deduplicateCards (filter (hasRewardFor cat) cards).
Proof. intros Hcat. unfold displayedCards. by rewrite decide_True. Qed.

(** X5: in the view of a category other than [ALL], every displayed card is
    a card of the state with a reward for that category, no two displayed
    cards share a canonical key, and every card of the state with a reward
    for the category has its key displayed. *)
Theorem displayedCards_category (cards : list CreditCard) (cat : CardCategory) :
  cat ≠ ALL →
  (∀ c, c ∈ displayedCards cards cat → c ∈ cards ∧ hasRewardFor cat c)
  ∧ NoDup (cardKey <$> displayedCards cards cat)
  ∧ (∀ c, c ∈ cards → hasRewardFor cat c →
          ∃ w, w ∈ displayedCards cards cat ∧ cardKey w = cardKey c).
Proof.
  intros Hcat. rewrite displayedCards_filtered by done. split_and!.
  - intros c Hc%deduplicateCards_subset.
    by apply list_elem_of_filter in Hc as [? ?].
  - apply deduplicateCards_NoDup.
  - intros c Hc Hr.
    assert (cardKey c ∈ cardKey <$> deduplicateCards (filter (hasRewardFor cat) cards))
      as Hk.
    { apply deduplicateCards_keys_iff, list_elem_of_fmap_2.
      by apply list_elem_of_filter. }
    apply list_elem_of_fmap in Hk as (w & Hk & Hw). eauto.
Qed.

Lemma displayedCards_category_witness :
  ∃ w, w ∈ displayedCards [fooStaticTravel; fooLive] TRAVEL_JP_KR
       ∧ cardKey w = cardKey fooStaticTravel.
Proof.
  refine (proj2 (proj2 (displayedCards_category
            [fooStaticTravel; fooLive] TRAVEL_JP_KR _)) fooStaticTravel _ _).
  - discriminate.
  - left.
  - unfold hasRewardFor. simpl. left.
Defined.



(** ** Refreshing a category *)

Lemma refreshCategory_resolved_cards targetCat batch now st :
  syncCards (refreshCategory targetCat (Resolved batch) now st)
  = syncCards st ++ batch.
Proof.
  unfold refreshCategory. simpl. destruct batch as [|c batch]; simpl; [|done].
  by rewrite app_nil_r.
Qed.

Lemma displayedCards_app a b cat :
  displayedCards (a ++ b) cat
  = deduplicateCards
      ((if decide (cat ≠ ALL) then filter (hasRewardFor cat) a else a)
       ++ (if decide (cat ≠ ALL) then filter (hasRewardFor cat) b else b)).
Proof.
  unfold displayedCards. case_decide; [by rewrite filter_app | done].
Qed.

(** X7: after a refresh whose fetch resolved, the state is the old cards
    followed by the batch; in every view the keys displayed before keep
    their places at the head of the displayed list; and each live card of
    the batch that belongs to the view has its key displayed exactly once,
    by a live record.  The first two parts hold for every batch. *)
Theorem refresh_then_display (targetCat : CardCategory)
    (batch : list CreditCard) (now : Z) (st : SyncState) (cat : CardCategory) :
  syncCards (refreshCategory targetCat (Resolved batch) now st)
  = syncCards st ++ batch
  ∧ cardKey <$> displayedCards (syncCards st) cat
    `prefix_of`
    cardKey <$> displayedCards
                  (syncCards (refreshCategory targetCat (Resolved batch) now st))
                  cat
  ∧ (∀ c, c ∈ batch → live c → cat = ALL ∨ hasRewardFor cat c →
       ∃ w, withKey (cardKey c)
              (displayedCards
                 (syncCards (refreshCategory targetCat (Resolved batch) now st))
                 cat) = [w]
            ∧ live w).
Proof.
  rewrite refreshCategory_resolved_cards. split_and!; [done | |].
  - rewrite displayedCards_app. unfold displayedCards.
    rewrite !deduplicateCards_keys, !scanCards_keys, fmap_app.
    rewrite firstOccurrences_app. by eexists.
  - intros c Hc Hlive Hview. rewrite displayedCards_app.
    set (view := (if decide (cat ≠ ALL) then filter (hasRewardFor cat) batch
                  else batch)).
    assert (c ∈ view) as Hcv.
    { unfold view. case_decide as Hcat; [|done].
      apply list_elem_of_filter. split; [|done].
      by destruct Hview as [-> | ?]. }
    match goal with |- context [deduplicateCards (?a ++ view)] =>
      destruct (winner_live (cardKey c) (a ++ view) c) as (w & Hw & Hlw);
        [apply elem_of_app; by right | done | done |]
    end.
    exists w. split; [by apply withKey_deduplicateCards | done].
Qed.

Lemma refresh_then_display_witness :
  ∃ w, withKey (cardKey fooLive)
         (displayedCards
            (syncCards (refreshCategory ALL (Resolved [fooLive]) 1700000000000
                          {| syncCards := [fooStatic];
                             categoryMeta := initialCategoryMeta |}))
            ALL) = [w]
       ∧ live w.
Proof.
  refine (proj2 (proj2 (refresh_then_display ALL [fooLive] 1700000000000
            {| syncCards := [fooStatic]; categoryMeta := initialCategoryMeta |}
            ALL)) fooLive _ _ _).
  - left.
  - reflexivity.
  - by left.
Defined.

(** X8: a second refresh that resolves with the same batch appends the
    batch again, so the state grows by twice the batch, while the displayed
    list of every view is what it was after the first refresh. *)
Theorem refresh_twice (targetCat : CardCategory) (batch : list CreditCard)
    (now1 now2 : Z) (st : SyncState) (cat : CardCategory) :
  length (syncCards
            (refreshCategory targetCat (Resolved batch) now2
               (refreshCategory targetCat (Resolved batch) now1 st)))
  = length (syncCards st) + 2 * length batch
  ∧ displayedCards
      (syncCards
         (refreshCategory targetCat (Resolved batch) now2
            (refreshCategory targetCat (Resolved batch) now1 st))) cat
    = displayedCards
        (syncCards (refreshCategory targetCat (Resolved batch) now1 st)) cat.
Proof.
  rewrite !refreshCategory_resolved_cards. split.
  - rewrite !length_app. lia.
  - rewrite <- app_assoc. unfold displayedCards.
    case_decide; [rewrite !filter_app|]; apply deduplicateCards_app_twice.
Qed.

(** X9: a refresh whose fetch rejects leaves the cards and the time of the
    last fetch as they were and the loading flag of its category set; a
    later refresh of another category, whatever its outcome, does not clear
    that flag. *)
Theorem refreshCategory_rejected (targetCat other : CardCategory)
    (fetched : FetchResult) (now now' : Z) (st : SyncState) :
  other ≠ targetCat →
  syncCards (refreshCategory targetCat Rejected now st) = syncCards st
  ∧ lastFetch (categoryMeta (refreshCategory targetCat Rejected now st) targetCat)
    = lastFetch (categoryMeta st targetCat)
  ∧ loading (categoryMeta (refreshCategory targetCat Rejected now st) targetCat)
    = true
  ∧ loading
      (categoryMeta
         (refreshCategory other fetched now'
            (refreshCategory targetCat Rejected now st)) targetCat)
    = true.
Proof.
  intros Hne. unfold refreshCategory, withMeta. simpl. split_and!.
  - done.
  - by rewrite decide_True.
  - by rewrite decide_True.
  - destruct fetched; simpl;
      by rewrite ?(decide_False (P := targetCat = other)), decide_True by done.
Qed.

Lemma refreshCategory_rejected_witness :
  loading
    (categoryMeta
       (refreshCategory ONLINE (Resolved [fooLive]) 1700000000500
          (refreshCategory GAS Rejected 1700000000000
             {| syncCards := [fooStatic]; categoryMeta := initialCategoryMeta |}))
       GAS)
  = true.
Proof.
  refine (proj2 (proj2 (proj2 (refreshCategory_rejected GAS ONLINE
            (Resolved [fooLive]) 1700000000000 1700000000500
            {| syncCards := [fooStatic]; categoryMeta := initialCategoryMeta |}
            _)))).
  discriminate.
Defined.

(** ** The wallet *)

(** X10: toggling an identifier twice gives the set back; one toggle flips
    the membership of that identifier and of no other, so the wallet list
    keeps or drops exactly the cards with that identifier. *)
Theorem toggleOwned_involutive (cardId : JSString) (ownedIds : gset JSString)
    (cards : list CreditCard) :
  toggleOwned cardId (toggleOwned cardId ownedIds) = ownedIds
  ∧ (cardId ∈ toggleOwned cardId ownedIds ↔ cardId ∉ ownedIds)
  ∧ (∀ j, j ≠ cardId → j ∈ toggleOwned cardId ownedIds ↔ j ∈ ownedIds)
  ∧ filter (λ c, id c ≠ cardId) (ownedCards cards (toggleOwned cardId ownedIds))
    = filter (λ c, id c ≠ cardId) (ownedCards cards ownedIds).
Proof.
  assert (∀ j, j ≠ cardId → j ∈ toggleOwned cardId ownedIds ↔ j ∈ ownedIds)
    as Hother.
  { intros j Hj. unfold toggleOwned. case_bool_decide.
    - rewrite elem_of_difference, not_elem_of_singleton. tauto.
    - rewrite elem_of_union, elem_of_singleton. tauto. }
  assert (cardId ∈ toggleOwned cardId ownedIds ↔ cardId ∉ ownedIds) as Hflip.
  { unfold toggleOwned. case_bool_decide.
    - rewrite elem_of_difference, not_elem_of_singleton. tauto.
    - rewrite elem_of_union, elem_of_singleton. tauto. }
  split_and!; [| done | done |].
  - apply set_eq. intros j. destruct (decide (j = cardId)) as [-> | Hj].
    + pose proof Hflip as Hflip2. unfold toggleOwned at 1.
      case_bool_decide as Hin.
      * rewrite elem_of_difference, not_elem_of_singleton.
        destruct (decide (cardId ∈ ownedIds)); tauto.
      * rewrite elem_of_union, elem_of_singleton.
        destruct (decide (cardId ∈ ownedIds)); tauto.
    + unfold toggleOwned at 1. case_bool_decide.
      * rewrite elem_of_difference, not_elem_of_singleton, Hother by done. tauto.
      * rewrite elem_of_union, elem_of_singleton, Hother by done. tauto.
  - unfold ownedCards. rewrite !list_filter_filter. apply list_filter_iff.
    intros c. split; intros [Hne Hin]; (split; [done|]); by apply Hother.
Qed.

(** ** More on the merge and the discovery effect *)

Lemma keepFirstById_subset l c : c ∈ keepFirstById l → c ∈ l.
Proof.
  intros Hc%elem_of_keepFirstById%head_Some_elem_of.
  by apply list_elem_of_filter in Hc as [_ ?].
Qed.

Lemma keepFirstById_ids l i : i ∈ id <$> keepFirstById l ↔ i ∈ id <$> l.
Proof.
  split.
  - intros (c & -> & Hc)%list_elem_of_fmap.
    by apply list_elem_of_fmap_2, keepFirstById_subset.
  - intros (c & -> & Hc)%list_elem_of_fmap.
    destruct (firstWithId (id c) l) as [w|] eqn:Hw.
    + assert (id w = id c) as Hid.
      { apply head_Some_elem_of in Hw.
        by apply list_elem_of_filter in Hw as [? _]. }
      rewrite <- Hid in *.
      by apply list_elem_of_fmap_2, elem_of_keepFirstById.
    + apply head_None in Hw. exfalso.
      by eapply (filter_nil_not_elem_of (λ x, id x = id c)); [exact Hw | | exact Hc].
Qed.

Lemma mergeBatch_again newCards prev :
  mergeBatch newCards (mergeBatch newCards prev) = mergeBatch newCards prev.
Proof.
  rewrite !mergeBatch_keepFirstById.
  rewrite (keepFirstById_app newCards (keepFirstById _)).
  rewrite (keepFirstById_NoDup_id (keepFirstById _)) by apply keepFirstById_NoDup.
  rewrite keepFirstById_app at 1. rewrite filter_app, list_filter_filter.
  rewrite (filter_none (λ c, id c ∉ id <$> newCards) (keepFirstById newCards)).
  - simpl. rewrite keepFirstById_app. f_equal. apply list_filter_iff. tauto.
  - intros c Hc Hn. apply Hn. by apply list_elem_of_fmap_2, keepFirstById_subset.
Qed.

Lemma mergeBatch_length newCards prev :
  length (mergeBatch newCards prev) ≤ length newCards + length prev.
Proof.
  rewrite mergeBatch_keepFirstById, <- length_app.
  induction (newCards ++ prev) as [|c l IH]; simpl; [lia|].
  pose proof (length_filter (λ x, id x ≠ id c) (keepFirstById l)). lia.
Qed.

(** X11: merging a batch neither loses nor invents an identifier, every
    card of the merged list is a fetched or a stored card, the merged list
    is no longer than batch and state together, and merging the same batch
    a second time changes nothing. *)
Theorem mergeBatch_ids (newCards prev : list CreditCard) :
  (∀ i, i ∈ id <$> mergeBatch newCards prev
        ↔ i ∈ id <$> newCards ∨ i ∈ id <$> prev)
  ∧ (∀ c, c ∈ mergeBatch newCards prev → c ∈ newCards ∨ c ∈ prev)
  ∧ length (mergeBatch newCards prev) ≤ length newCards + length prev
  ∧ mergeBatch newCards (mergeBatch newCards prev) = mergeBatch newCards prev.
Proof.
  split_and!.
  - intros i. rewrite mergeBatch_keepFirstById, keepFirstById_ids, fmap_app.
    apply elem_of_app.
  - intros c. rewrite mergeBatch_keepFirstById.
    intros Hc%keepFirstById_subset. by apply elem_of_app.
  - apply mergeBatch_length.
  - apply mergeBatch_again.
Qed.

(** What the loop does to the cards and to the counter, for any service. *)
Lemma discoveryLoop_invariants capturedCards service queries st :
  let result := discoveryLoop capturedCards service queries st in
  (∀ i, i ∈ id <$> cards st → i ∈ id <$> cards result.1)
  ∧ discoveredCount result.1
    = discoveredCount st
      + sum_list ((λ i, batchSize (service (issuedQuery i))) <$> result.2)
  ∧ length (cards result.1)
    ≤ length (cards st)
      + sum_list ((λ i, batchSize (service (issuedQuery i))) <$> result.2).
Proof.
  revert st. induction queries as [|q queries IH]; intros st.
  - simpl. split_and!; [done | lia | lia].
  - cbn [discoveryLoop]. destruct (100 <=? length capturedCards)%nat.
    + simpl. split_and!; [done | lia | lia].
    + match goal with
      | |- context [discoveryLoop capturedCards service queries ?s] =>
          specialize (IH s);
          destruct (discoveryLoop capturedCards service queries s)
            as [st3 issued] eqn:Hloop
      end.
      cbn [fst snd] in *. destruct IH as (Hids & Hcount & Hlen).
      cbn [fmap list_fmap sum_list issuedQuery].
      destruct (service q) as [newCards|]; cbn [batchSize].
      * destruct newCards as [|c newCards]; cbn [length Nat.ltb Nat.leb] in *.
        -- simpl in *. split_and!; [done | lia | lia].
        -- simpl in Hids, Hcount, Hlen. split_and!.
           ++ intros i Hi. apply Hids.
              rewrite mergeBatch_keepFirstById, keepFirstById_ids, fmap_app.
              apply elem_of_app. by right.
           ++ simpl. lia.
           ++ pose proof (mergeBatch_length (c :: newCards) (cards st)).
              simpl in *. lia.
      * simpl in *. split_and!; [done | lia | lia].
Qed.

Lemma discoveryEffect_unfold started service y m st :
  discoveryEffect started service y m st
  = if started || (100 <? length (cards st))%nat then (started, st, [])
    else (true,
          setDiscoveryStatus None
            (discoveryLoop (cards st) service (DISCOVERY_QUERIES y m) st).1,
          (discoveryLoop (cards st) service (DISCOVERY_QUERIES y m) st).2).
Proof.
  unfold discoveryEffect, runDiscovery.
  destruct (started || _); [done|]. by destruct (discoveryLoop _ _ _ _).
Qed.

(** X12: the effect issues its queries at most once: whatever the first
    invocation did, a second invocation on the resulting ref and state
    (with any service, year and month) issues nothing and changes
    nothing. *)
Theorem discoveryEffect_once (started : bool)
    (service service' : Query → FetchResult) (y m y' m' : nat)
    (st : AppState) :
  discoveryEffect
    (discoveryEffect started service y m st).1.1 service' y' m'
    (discoveryEffect started service y m st).1.2
  = ((discoveryEffect started service y m st).1.1,
     (discoveryEffect started service y m st).1.2, []).
Proof.
  rewrite (discoveryEffect_unfold started service).
  destruct (started || (100 <? length (cards st))%nat) eqn:Hguard.
  - cbn [fst snd]. rewrite discoveryEffect_unfold. by rewrite Hguard.
  - cbn [fst snd]. by rewrite discoveryEffect_unfold.
Qed.

(** X13: through the effect, for any service, no identifier of the state is
    lost; [discoveredCount] grows by the sizes of the batches the issued
    queries resolved with, whether or not their cards were new; and the
    number of cards grows by no more than that. *)
Theorem discoveryEffect_accounting (started : bool)
    (service : Query → FetchResult) (y m : nat) (st : AppState) :
  (∀ i, i ∈ id <$> cards st
        → i ∈ id <$> cards (discoveryEffect started service y m st).1.2)
  ∧ discoveredCount (discoveryEffect started service y m st).1.2
    = discoveredCount st
      + sum_list ((λ i, batchSize (service (issuedQuery i)))
                    <$> (discoveryEffect started service y m st).2)
  ∧ length (cards (discoveryEffect started service y m st).1.2)
    ≤ length (cards st)
      + sum_list ((λ i, batchSize (service (issuedQuery i)))
                    <$> (discoveryEffect started service y m st).2).
Proof.
  rewrite discoveryEffect_unfold.
  destruct (started || (100 <? length (cards st))%nat).
  - simpl. split_and!; [done | lia | lia].
  - cbn [fst snd]. apply discoveryLoop_invariants.
Qed.

Lemma discoveryLoop_no_batch capturedCards service queries st :
  (∀ q, batchSize (service q) = 0) →
  cards (discoveryLoop capturedCards service queries st).1 = cards st
  ∧ discoveredCount (discoveryLoop capturedCards service queries st).1
    = discoveredCount st.
Proof.
  intros Hnone. revert st. induction queries as [|q queries IH]; intros st; [done|].
  cbn [discoveryLoop]. destruct (100 <=? length capturedCards)%nat; [done|].
  match goal with
  | |- context [discoveryLoop capturedCards service queries ?s] =>
      specialize (IH s);
      destruct (discoveryLoop capturedCards service queries s)
        as [st3 issued] eqn:Hloop
  end.
  cbn [fst snd] in *. specialize (Hnone q).
  destruct (service q) as [[|c newCards]|]; simpl in *; [done | lia | done].
Qed.

(** X14: when every fetch rejects or resolves with an empty batch, the
    effect leaves the cards and the counter as they were; from a mount state
    of fewer than 100 cards it still issues all ten queries. *)
Theorem discoveryEffect_no_batch (service : Query → FetchResult)
    (y m : nat) (st : AppState) :
  (∀ q, batchSize (service q) = 0) →
  cards (discoveryEffect false service y m st).1.2 = cards st
  ∧ discoveredCount (discoveryEffect false service y m st).1.2
    = discoveredCount st
  ∧ (length (cards st) < 100 →
     issuedQuery <$> (discoveryEffect false service y m st).2
     = DISCOVERY_QUERIES y m).
Proof.
  intros Hnone. split_and!.
  - rewrite discoveryEffect_unfold. destruct (false || _); [done|].
    cbn [fst snd]. by apply discoveryLoop_no_batch.
  - rewrite discoveryEffect_unfold. destruct (false || _); [done|].
    cbn [fst snd]. by apply discoveryLoop_no_batch.
  - apply discoveryEffect_all_issued.
Qed.

Lemma discoveryEffect_no_batch_witness :
  cards (discoveryEffect false (λ _, Rejected) 2025 1 sampleState).1.2
  = cards sampleState.
Proof.
  refine (proj1 (discoveryEffect_no_batch (λ _, Rejected) 2025 1 sampleState _)).
  reflexivity.
Defined.

(** ** [getTimeAgo] *)

(** X15: a missing timestamp and the timestamp 0 read as never synced.  For
    any other timestamp, with the elapsed time in milliseconds: below one
    minute (a timestamp in the future included) the text is the one for
    just now; from one minute to one hour it shows the whole minutes
    elapsed, a number from 1 to 59; from one hour to one day the whole
    hours, from 1 to 23; from one day on the text for more than a day. *)
Theorem getTimeAgo_buckets (dateNow ts : Z) (language : Language) :
  getTimeAgo dateNow None language = notSyncedText language
  ∧ getTimeAgo dateNow (Some 0%Z) language = notSyncedText language
  ∧ (ts ≠ 0 → dateNow - ts < 60000 →
     getTimeAgo dateNow (Some ts) language = justNowText language)%Z
  ∧ (ts ≠ 0 → 60000 ≤ dateNow - ts < 3600000 →
     getTimeAgo dateNow (Some ts) language
     = minutesAgoText language ((dateNow - ts) / 60000)
     ∧ 1 ≤ (dateNow - ts) / 60000 ≤ 59)%Z
  ∧ (ts ≠ 0 → 3600000 ≤ dateNow - ts < 86400000 →
     getTimeAgo dateNow (Some ts) language
     = hoursAgoText language ((dateNow - ts) / 3600000)
     ∧ 1 ≤ (dateNow - ts) / 3600000 ≤ 23)%Z
  ∧ (ts ≠ 0 → 86400000 ≤ dateNow - ts →
     getTimeAgo dateNow (Some ts) language = overADayText language)%Z.
Proof.
  assert (∀ e : Z, (e / 1000 / 60 = e / 60000)%Z) as Hmin
    by (intros e; by rewrite Z.div_div by lia).
  assert (∀ e : Z, (e / 1000 / 60 / 60 = e / 3600000)%Z) as Hhour
    by (intros e; by rewrite !Z.div_div by lia).
  split_and!; [done | done | ..].
  - intros Hts Hlt. unfold getTimeAgo.
    rewrite (proj2 (Z.eqb_neq _ _) Hts).
    assert ((dateNow - ts) / 1000 < 60)%Z
      by (apply Z.div_lt_upper_bound; lia).
    by rewrite (proj2 (Z.ltb_lt _ _)).
  - intros Hts [Hlo Hhi]. unfold getTimeAgo.
    rewrite (proj2 (Z.eqb_neq _ _) Hts). cbn zeta.
    assert (60 ≤ (dateNow - ts) / 1000)%Z
      by (apply Z.div_le_lower_bound; lia).
    assert ((dateNow - ts) / 60000 < 60)%Z
      by (apply Z.div_lt_upper_bound; lia).
    assert (1 ≤ (dateNow - ts) / 60000)%Z
      by (apply Z.div_le_lower_bound; lia).
    rewrite (proj2 (Z.ltb_ge _ _)) by done.
    rewrite Hmin, (proj2 (Z.ltb_lt _ _)) by done. split; [done | lia].
  - intros Hts [Hlo Hhi]. unfold getTimeAgo.
    rewrite (proj2 (Z.eqb_neq _ _) Hts). cbn zeta.
    assert (60 ≤ (dateNow - ts) / 1000)%Z
      by (apply Z.div_le_lower_bound; lia).
    assert (60 ≤ (dateNow - ts) / 60000)%Z
      by (apply Z.div_le_lower_bound; lia).
    assert ((dateNow - ts) / 3600000 < 24)%Z
      by (apply Z.div_lt_upper_bound; lia).
    assert (1 ≤ (dateNow - ts) / 3600000)%Z
      by (apply Z.div_le_lower_bound; lia).
    rewrite (proj2 (Z.ltb_ge _ _)) by done.
    rewrite Hmin, (proj2 (Z.ltb_ge _ _)) by done.
    rewrite <- Hmin, Hhour, (proj2 (Z.ltb_lt _ _)) by done. split; [done | lia].
  - intros Hts Hlo. unfold getTimeAgo.
    rewrite (proj2 (Z.eqb_neq _ _) Hts). cbn zeta.
    assert (60 ≤ (dateNow - ts) / 1000)%Z
      by (apply Z.div_le_lower_bound; lia).
    assert (60 ≤ (dateNow - ts) / 60000)%Z
      by (apply Z.div_le_lower_bound; lia).
    assert (24 ≤ (dateNow - ts) / 3600000)%Z
      by (apply Z.div_le_lower_bound; lia).
    rewrite (proj2 (Z.ltb_ge _ _)) by done.
    rewrite Hmin, (proj2 (Z.ltb_ge _ _)) by done.
    by rewrite <- Hmin, Hhour, (proj2 (Z.ltb_ge _ _)) by done.
Qed.

(** Ninety minutes after the last fetch, in English. *)
Lemma getTimeAgo_buckets_witness :
  getTimeAgo 1700005400000 (Some 1700000000000%Z) en_US = js "1h ago".
Proof.
  refine (proj1 (proj1 (proj2 (proj2 (proj2 (proj2
            (getTimeAgo_buckets 1700005400000 1700000000000 en_US))))) _ _)).
  - discriminate.
  - split; [by vm_compute | by vm_compute].
Defined.

(** ** [getCardStyle] *)

Lemma lowerUnit_idempotent u : lowerUnit u ≫= lowerUnit = lowerUnit u.
Proof.
  unfold lowerUnit at 2 3. unfold inRange.
  destruct (0x41 <=? u)%N eqn:H1, (u <=? 0x5A)%N eqn:H2; simpl;
    try apply N.leb_le in H1; try apply N.leb_le in H2;
    try apply N.leb_gt in H1; try apply N.leb_gt in H2.
  - unfold lowerUnit, inRange.
    rewrite (proj2 (N.leb_gt (u + 0x20) 0x5A)) by lia. rewrite andb_false_r.
    rewrite (proj2 (N.eqb_neq (u + 0x20) 0x130)) by lia.
    by rewrite (proj2 (N.eqb_neq (u + 0x20) 0x212A)) by lia.
  - destruct (u =? 0x130)%N eqn:H3; [done|].
    destruct (u =? 0x212A)%N eqn:H4; [done|]. simpl.
    unfold lowerUnit, inRange.
    rewrite (proj2 (N.leb_le 0x41 u)) by lia.
    rewrite (proj2 (N.leb_gt u 0x5A)) by lia. simpl.
    by rewrite H3, H4.
  - apply N.leb_le in H2 || idtac.
    destruct (u =? 0x130)%N eqn:H3; [apply N.eqb_eq in H3; lia|].
    destruct (u =? 0x212A)%N eqn:H4; [apply N.eqb_eq in H4; lia|]. simpl.
    unfold lowerUnit, inRange.
    rewrite (proj2 (N.leb_gt 0x41 u)) by lia. simpl. by rewrite H3, H4.
  - lia.
Qed.

Lemma toLowerCase_idempotent s : toLowerCase (toLowerCase s) = toLowerCase s.
Proof.
  unfold toLowerCase. induction s as [|u s IH]; [done|].
  cbn [mbind list_bind]. rewrite bind_app.
  change (list_bind _ _ lowerUnit ?l) with (l ≫= lowerUnit).
  by rewrite lowerUnit_idempotent, IH.
Qed.

Lemma toLowerCase_app s1 s2 :
  toLowerCase (s1 ++ s2) = toLowerCase s1 ++ toLowerCase s2.
Proof. apply bind_app. Qed.

Lemma idHash_sum id acc :
  fold_left (λ acc char, acc + char)%N id acc = (acc + idHash id)%N.
Proof.
  unfold idHash. revert acc.
  induction id as [|c id IH]; intros acc; cbn [fold_left].
  - lia.
  - rewrite (IH (acc + c)%N), (IH (0 + c)%N). lia.
Qed.

Lemma idHash_Permutation id id' : id ≡ₚ id' → idHash id = idHash id'.
Proof.
  induction 1 as [|c l l' _ IH|c d l|l l' l'' _ IH1 _ IH2].
  - done.
  - unfold idHash. cbn [fold_left]. rewrite !idHash_sum. by rewrite IH.
  - unfold idHash. cbn [fold_left]. rewrite !idHash_sum. lia.
  - congruence.
Qed.

(** X16: the style is always one of the class lists, never [undefined]:
    the fallback index is below the number of gradients.  Identifiers with
    the same code units in another order get the same style, and the style
    does not change when bank and name are lower-cased first. *)
Theorem getCardStyle_defined :
  (∀ id bank name, is_Some (getCardStyle id bank name))
  ∧ (∀ id id' bank name,
       id ≡ₚ id' → getCardStyle id bank name = getCardStyle id' bank name)
  ∧ (∀ id bank name,
       getCardStyle id (toLowerCase bank) (toLowerCase name)
       = getCardStyle id bank name).
Proof.
  split_and!.
  - intros id bank name. unfold getCardStyle.
    repeat (match goal with |- is_Some (if ?b then _ else _) =>
              destruct b; [by eexists|] end).
    apply lookup_lt_is_Some. cbn [gradients length].
    pose proof (N.mod_lt (idHash id) (N.of_nat 6)). lia.
  - intros id id' bank name Hperm. unfold getCardStyle.
    by rewrite (idHash_Permutation id id' Hperm).
  - intros id bank name. unfold getCardStyle.
    by rewrite <- toLowerCase_app, toLowerCase_idempotent.
Qed.

Lemma getCardStyle_defined_witness :
  getCardStyle (js "c1") (js "Foo") (js "Bar")
  = getCardStyle (js "1c") (js "Foo") (js "Bar").
Proof.
  refine (proj1 (proj2 getCardStyle_defined) (js "c1") (js "1c")
            (js "Foo") (js "Bar") _).
  apply perm_swap.
Defined.

(** ** [cleanJson] *)

Lemma indexOf_ge c s : (-1 ≤ indexOf c s)%Z.
Proof.
  induction s as [|u s IH]; simpl; [lia|].
  case_decide; [lia|]. destruct (Z.eqb_spec (indexOf c s) (-1)); lia.
Qed.

Lemma indexOf_absent c s : c ∉ s → indexOf c s = (-1)%Z.
Proof.
  induction s as [|u s IH]; simpl; [done|].
  intros [Hne Hs]%not_elem_of_cons. rewrite decide_False by done.
  by rewrite IH.
Qed.

Lemma indexOf_first c pre rest :
  c ∉ pre → indexOf c (pre ++ c :: rest) = Z.of_nat (length pre).
Proof.
  induction pre as [|u pre IH]; cbn [indexOf app].
  - intros _. by rewrite decide_True.
  - intros [Hne Hs]%not_elem_of_cons. rewrite decide_False by done.
    rewrite IH by done. cbn zeta. rewrite length_cons, Nat2Z.inj_succ.
    destruct (Z.eqb_spec (Z.of_nat (length pre)) (-1)); lia.
Qed.

Lemma lastIndexOf_ge c s : (-1 ≤ lastIndexOf c s)%Z.
Proof.
  induction s as [|u s IH]; simpl; [lia|].
  destruct (Z.eqb_spec (lastIndexOf c s) (-1)); [case_decide; lia | lia].
Qed.

Lemma lastIndexOf_absent c s : c ∉ s → lastIndexOf c s = (-1)%Z.
Proof.
  induction s as [|u s IH]; simpl; [done|].
  intros [Hne Hs]%not_elem_of_cons. rewrite IH by done. simpl.
  by rewrite decide_False.
Qed.

Lemma lastIndexOf_last c pre post :
  c ∉ post → lastIndexOf c (pre ++ c :: post) = Z.of_nat (length pre).
Proof.
  intros Hpost. induction pre as [|u pre IH]; cbn [lastIndexOf app].
  - rewrite lastIndexOf_absent by done. simpl. by rewrite decide_True.
  - rewrite IH. cbn zeta. rewrite length_cons, Nat2Z.inj_succ.
    destruct (Z.eqb_spec (Z.of_nat (length pre)) (-1)); lia.
Qed.

Lemma substring_infix i j s : ∃ a b, s = a ++ substring i j s ++ b.
Proof.
  unfold substring. eexists (take _ s), (drop _ (drop _ s)).
  by rewrite take_drop, take_drop.
Qed.

Lemma substring_slice pre mid post :
  substring (Z.of_nat (length pre)) (Z.of_nat (length pre + length mid))
    (pre ++ mid ++ post) = mid.
Proof.
  unfold substring. cbn zeta. rewrite !length_app.
  match goal with
  | |- take (Z.to_nat ?n) (drop (Z.to_nat ?m) _) = _ =>
      replace (Z.to_nat n) with (length mid) by lia;
      replace (Z.to_nat m) with (length pre) by lia
  end.
  rewrite drop_app_length. by rewrite take_app_length.
Qed.

Lemma substring_to_zero pre rest :
  substring (Z.of_nat (length pre)) 0 (pre ++ rest) = pre.
Proof.
  unfold substring. cbn zeta. rewrite !length_app.
  match goal with
  | |- take (Z.to_nat ?n) (drop (Z.to_nat ?m) _) = _ =>
      replace (Z.to_nat n) with (length pre) by lia;
      replace (Z.to_nat m) with 0 by lia
  end.
  rewrite drop_0. by rewrite take_app_length.
Qed.

Lemma startsWith_spec pat s : startsWith pat s = true ↔ ∃ b, s = pat ++ b.
Proof.
  revert s. induction pat as [|p pat IH]; intros s; simpl.
  - split; [by exists s | done].
  - destruct s as [|c s].
    + split; [done | by intros [b ?]].
    + rewrite andb_true_iff, bool_decide_eq_true, IH. split.
      * intros [-> [b ->]]. by exists b.
      * intros [b [= -> ->]]. eauto.
Qed.

Lemma includes_spec pat s : includes pat s = true ↔ ∃ a b, s = a ++ pat ++ b.
Proof.
  induction s as [|c s IH]; simpl.
  - rewrite orb_false_r, startsWith_spec. split.
    + intros [b Hb]. by exists [], b.
    + intros (a & b & Hab). destruct a; [by exists b | done].
  - rewrite orb_true_iff, startsWith_spec, IH. split.
    + intros [[b Hb] | (a & b & ->)]; [by exists [], b | by exists (c :: a), b].
    + intros (a & b & Hab). destruct a as [|x a].
      * left. by exists b.
      * right. injection Hab as -> ->. by exists a, b.
Qed.

Lemma includes_infix pat a s b :
  includes pat (a ++ s ++ b) = false → includes pat s = false.
Proof.
  intros Hfalse. apply not_true_is_false. intros (a' & b' & ->)%includes_spec.
  apply not_true_iff_false in Hfalse. apply Hfalse, includes_spec.
  exists (a ++ a'), (b' ++ b). by rewrite <- !app_assoc.
Qed.

Lemma trimStart_suffix s : ∃ a, s = a ++ trimStart s.
Proof.
  induction s as [|u s [a IH]]; simpl; [by exists []|].
  destruct (isWhiteSpace u); [|by exists []].
  exists (u :: a). simpl. by rewrite <- IH.
Qed.

Lemma trim_infix s : ∃ a b, s = a ++ trim s ++ b.
Proof.
  unfold trim. destruct (trimStart_suffix s) as [a Ha].
  destruct (trimStart_suffix (reverse (trimStart s))) as [b Hb].
  exists a, (reverse b). rewrite Ha at 1. f_equal.
  rewrite <- reverse_app, <- Hb. by rewrite reverse_involutive.
Qed.

Lemma removeAll_fence_match s : removeAll fence (fence ++ s) = removeAll fence s.
Proof. reflexivity. Qed.

Lemma removeAll_no_match pat c rest :
  startsWith pat (c :: rest) = false →
  removeAll pat (c :: rest) = c :: removeAll pat rest.
Proof. unfold removeAll. cbn [removeAllFrom]. by intros ->. Qed.

(** After the replacement no fence is left, and the result starts with no
    more backticks than the text did. *)
Lemma removeAll_fence_clean s :
  includes fence (removeAll fence s) = false
  ∧ (startsWith [0x60%N] (removeAll fence s) = true
     → startsWith [0x60%N] s = true)
  ∧ (startsWith [0x60%N; 0x60%N] (removeAll fence s) = true
     → startsWith [0x60%N; 0x60%N] s = true).
Proof.
  remember (length s) as n eqn:Hn. revert s Hn.
  induction n as [n IH] using lt_wf_ind. intros s Hn.
  destruct (startsWith fence s) eqn:Hstart.
  - apply startsWith_spec in Hstart as [b ->].
    rewrite removeAll_fence_match.
    destruct (IH (length b)) with (s := b) as (Hclean & _ & _);
      [rewrite Hn, length_app; simpl; lia | done |].
    split_and!; [done | done | done].
  - destruct s as [|c rest]; [done|].
    rewrite removeAll_no_match by done.
    destruct (IH (length rest)) with (s := rest) as (Hclean & H1 & H2);
      [rewrite Hn; simpl; lia | done |].
    split_and!.
    + cbn [includes]. rewrite Hclean, orb_false_r.
      apply not_true_is_false. intros Hs.
      cbn [startsWith fence] in Hs.
      apply andb_true_iff in Hs as [Hc Hs]. apply bool_decide_eq_true in Hc.
      specialize (H2 Hs). subst c.
      apply startsWith_spec in H2 as [b ->]. discriminate Hstart.
    + intros [b Hb]%startsWith_spec. injection Hb as -> _.
      apply startsWith_spec. by exists rest.
    + intros [b Hb]%startsWith_spec. injection Hb as -> Hb.
      assert (startsWith [0x60%N] (removeAll fence rest) = true) as Hd
        by (apply startsWith_spec; exists b; by rewrite Hb).
      apply H1, startsWith_spec in Hd as [b' ->].
      apply startsWith_spec. by exists b'.
Qed.

Lemma stripFences_clean text : includes fence (stripFences text) = false.
Proof.
  unfold stripFences.
  destruct (trim_infix (removeAll fence (removeAll (fence ++ js "json") text)))
    as (a & b & Hab).
  apply (includes_infix fence a _ b). rewrite <- Hab.
  apply removeAll_fence_clean.
Qed.

(** The three ways [cleanJson] ends. *)
Lemma cleanJson_cases text :
  cleanJson text =
  let cleaned := stripFences text in
  if negb (indexOf 0x5B%N cleaned =? -1)%Z
     && ((indexOf 0x5B%N cleaned <? indexOf 0x7B%N cleaned)%Z
         || (indexOf 0x7B%N cleaned =? -1)%Z)
  then substring (indexOf 0x5B%N cleaned) (lastIndexOf 0x5D%N cleaned + 1) cleaned
  else if negb (indexOf 0x7B%N cleaned =? -1)%Z
  then substring (indexOf 0x7B%N cleaned) (lastIndexOf 0x7D%N cleaned + 1) cleaned
  else cleaned.
Proof.
  unfold cleanJson. cbn zeta.
  set (cleaned := stripFences text).
  pose proof (lastIndexOf_ge 0x5D%N cleaned) as H1.
  pose proof (lastIndexOf_ge 0x7D%N cleaned) as H2.
  destruct (negb (indexOf 0x5B%N cleaned =? -1)%Z
            && ((indexOf 0x5B%N cleaned <? indexOf 0x7B%N cleaned)%Z
                || (indexOf 0x7B%N cleaned =? -1)%Z)) eqn:Hbr.
  - apply andb_true_iff in Hbr as [Hbr _]. rewrite Hbr.
    rewrite (proj2 (Z.eqb_neq (lastIndexOf 0x5D%N cleaned + 1) (-1))) by lia.
    reflexivity.
  - destruct (negb (indexOf 0x7B%N cleaned =? -1)%Z) eqn:Hbc; [|done].
    cbn [andb].
    rewrite (proj2 (Z.eqb_neq (lastIndexOf 0x7D%N cleaned + 1) (-1))) by lia.
    rewrite ?Hbc. reflexivity.
Qed.

Lemma removeAll_absent p pat s : p ∉ s → removeAll (p :: pat) s = s.
Proof.
  induction s as [|c s IH]; [done|].
  intros [Hne Hs]%not_elem_of_cons. rewrite removeAll_no_match.
  - by rewrite IH.
  - cbn [startsWith]. by rewrite bool_decide_eq_false_2.
Qed.

Lemma indexOf_after c pre rest :
  c ∉ pre →
  indexOf c (pre ++ rest)
  = if (indexOf c rest =? -1)%Z then (-1)%Z
    else (Z.of_nat (length pre) + indexOf c rest)%Z.
Proof.
  induction pre as [|u pre IH]; cbn [indexOf app].
  - intros _. destruct (Z.eqb_spec (indexOf c rest) (-1)); simpl; lia.
  - intros [Hne Hs]%not_elem_of_cons. rewrite decide_False by done.
    rewrite IH by done. cbn zeta. rewrite length_cons, Nat2Z.inj_succ.
    pose proof (indexOf_ge c rest).
    destruct (Z.eqb_spec (indexOf c rest) (-1)); [done|].
    destruct (Z.eqb_spec (Z.of_nat (length pre) + indexOf c rest) (-1)); lia.
Qed.

(** X17: the result of [cleanJson] is a contiguous part of the text that
    is left after the fences are removed and the ends trimmed, and it holds
    no run of three backticks; a text without backticks loses nothing but
    the white space at its ends before the selection. *)
Theorem cleanJson_clean (text : JSString) :
  (∃ a b, stripFences text = a ++ cleanJson text ++ b)
  ∧ includes fence (cleanJson text) = false
  ∧ (0x60%N ∉ text → stripFences text = trim text).
Proof.
  assert (∃ a b, stripFences text = a ++ cleanJson text ++ b) as Hinfix.
  { rewrite cleanJson_cases. cbn zeta.
    repeat (match goal with |- context [if ?b then _ else _] => destruct b end);
      try apply substring_infix.
    exists [], []. by rewrite app_nil_r. }
  split_and!; [done | |].
  - destruct Hinfix as (a & b & Hab).
    apply (includes_infix fence a _ b). rewrite <- Hab.
    apply stripFences_clean.
  - intros Hno. unfold stripFences, fence. cbn [app].
    rewrite (removeAll_absent _ _ text) by done.
    by rewrite removeAll_absent by done.
Qed.

Lemma cleanJson_clean_witness : stripFences (js " [1, 2] ") = trim (js " [1, 2] ").
Proof.
  refine (proj2 (proj2 (cleanJson_clean (js " [1, 2] "))) _).
  apply (bool_decide_unpack _). by vm_compute.
Defined.

Lemma substring_between pre o mid c post :
  substring (Z.of_nat (length pre)) (Z.of_nat (length (pre ++ o :: mid)) + 1)
    ((pre ++ o :: mid) ++ c :: post)
  = o :: mid ++ [c].
Proof.
  replace (Z.of_nat (length (pre ++ o :: mid)) + 1)%Z
    with (Z.of_nat (length pre + length (o :: mid ++ [c])))
    by (rewrite !length_app; simpl; rewrite length_app; simpl; lia).
  replace ((pre ++ o :: mid) ++ c :: post)
    with (pre ++ (o :: mid ++ [c]) ++ post)
    by (rewrite <- !app_assoc; simpl; by rewrite <- app_assoc).
  apply substring_slice.
Qed.

(** The index of a code unit in a text that starts with another one. *)
Lemma indexOf_behind c o rest :
  o ≠ c → indexOf c (o :: rest) = (-1)%Z ∨ (1 ≤ indexOf c (o :: rest))%Z.
Proof.
  intros Hne. cbn [indexOf]. rewrite decide_False by done. cbn zeta.
  pose proof (indexOf_ge c rest).
  destruct (Z.eqb_spec (indexOf c rest) (-1)); lia.
Qed.

(** X18: when the cleaned text opens with a square bracket before any
    brace and a closing square bracket follows, the result runs from the
    first opening bracket to the last closing one; likewise with braces
    when a brace comes first. *)
Theorem cleanJson_extracts :
  (∀ text pre mid post,
     stripFences text = pre ++ [0x5B%N] ++ mid ++ [0x5D%N] ++ post →
     0x5B%N ∉ pre → 0x7B%N ∉ pre → 0x5D%N ∉ post →
     cleanJson text = [0x5B%N] ++ mid ++ [0x5D%N])
  ∧ (∀ text pre mid post,
       stripFences text = pre ++ [0x7B%N] ++ mid ++ [0x7D%N] ++ post →
       0x5B%N ∉ pre → 0x7B%N ∉ pre → 0x7D%N ∉ post →
       cleanJson text = [0x7B%N] ++ mid ++ [0x7D%N]).
Proof.
  split.
  - intros text pre mid post Hclean Hbr Hbc Hpost.
    assert (stripFences text = pre ++ 0x5B%N :: (mid ++ 0x5D%N :: post)) as Hc
      by exact Hclean.
    rewrite cleanJson_cases, Hc. cbn zeta.
    rewrite (indexOf_first 0x5B%N pre) by done.
    rewrite (indexOf_after 0x7B%N pre) by done.
    replace (pre ++ 0x5B%N :: mid ++ 0x5D%N :: post)
      with ((pre ++ 0x5B%N :: mid) ++ 0x5D%N :: post)
      by (by rewrite <- app_assoc).
    rewrite lastIndexOf_last by done.
    destruct (indexOf_behind 0x7B%N 0x5B%N (mid ++ 0x5D%N :: post)) as [-> | Hge];
      [done | |].
    + rewrite (proj2 (Z.eqb_neq (Z.of_nat (length pre)) (-1))) by lia.
      rewrite ?orb_true_r, ?andb_false_r; cbn [negb andb orb Z.eqb]; apply substring_between.
    + rewrite (proj2 (Z.eqb_neq (Z.of_nat (length pre)) (-1))) by lia.
      rewrite (proj2 (Z.eqb_neq (indexOf 0x7B%N _) (-1))) by lia.
      rewrite (proj2 (Z.ltb_lt _ _)) by lia.
      rewrite ?orb_true_r, ?andb_false_r; cbn [negb andb orb Z.eqb]; apply substring_between.
  - intros text pre mid post Hclean Hbr Hbc Hpost.
    assert (stripFences text = pre ++ 0x7B%N :: (mid ++ 0x7D%N :: post)) as Hc
      by exact Hclean.
    rewrite cleanJson_cases, Hc. cbn zeta.
    rewrite (indexOf_first 0x7B%N pre) by done.
    rewrite (indexOf_after 0x5B%N pre) by done.
    replace (pre ++ 0x7B%N :: mid ++ 0x7D%N :: post)
      with ((pre ++ 0x7B%N :: mid) ++ 0x7D%N :: post)
      by (by rewrite <- app_assoc).
    rewrite lastIndexOf_last by done.
    rewrite (proj2 (Z.eqb_neq (Z.of_nat (length pre)) (-1))) by lia.
    rewrite orb_false_r.
    destruct (indexOf_behind 0x5B%N 0x7B%N (mid ++ 0x7D%N :: post)) as [-> | Hge];
      [done | |].
    + rewrite ?orb_true_r, ?andb_false_r; cbn [negb andb orb Z.eqb]; apply substring_between.
    + rewrite (proj2 (Z.eqb_neq (indexOf 0x5B%N _) (-1))) by lia.
      rewrite (proj2 (Z.ltb_ge _ _)) by lia.
      rewrite ?orb_true_r, ?andb_false_r; cbn [negb andb orb Z.eqb]; apply substring_between.
Qed.

Lemma cleanJson_extracts_witness :
  cleanJson (fence ++ js "json [1, 2] " ++ fence ++ js " done") = js "[1, 2]".
Proof.
  refine (proj1 cleanJson_extracts
            (fence ++ js "json [1, 2] " ++ fence ++ js " done")
            [] (js "1, 2") (js "  done") _ _ _ _).
  - by vm_compute.
  - apply not_elem_of_nil.
  - apply not_elem_of_nil.
  - apply (bool_decide_unpack _). by vm_compute.
Defined.

(** X19: a cleaned text without bracket or brace is returned as it is.  A
    cleaned text whose first opening bracket or brace has no closing
    counterpart anywhere gives the text before that opening one: the end
    index is 0 then, which is not -1, and [substring] swaps its
    arguments. *)
Theorem cleanJson_unclosed :
  (∀ text, 0x5B%N ∉ stripFences text → 0x7B%N ∉ stripFences text →
     cleanJson text = stripFences text)
  ∧ (∀ text pre rest,
       stripFences text = pre ++ 0x5B%N :: rest →
       0x5B%N ∉ pre → 0x7B%N ∉ pre → 0x5D%N ∉ pre ++ rest →
       cleanJson text = pre)
  ∧ (∀ text pre rest,
       stripFences text = pre ++ 0x7B%N :: rest →
       0x5B%N ∉ pre → 0x7B%N ∉ pre → 0x7D%N ∉ pre ++ rest →
       cleanJson text = pre).
Proof.
  split_and!.
  - intros text Hbr Hbc. rewrite cleanJson_cases. cbn zeta.
    by rewrite !indexOf_absent by done.
  - intros text pre rest Hc Hbr Hbc Hclose.
    rewrite cleanJson_cases, Hc. cbn zeta.
    rewrite (indexOf_first 0x5B%N pre) by done.
    rewrite (indexOf_after 0x7B%N pre) by done.
    rewrite (lastIndexOf_absent 0x5D%N).
    2: { intros [Hin | Hin]%elem_of_app; [|apply elem_of_cons in Hin as [? | Hin]];
         [apply Hclose, elem_of_app; by left | done
         | apply Hclose, elem_of_app; by right]. }
    rewrite (proj2 (Z.eqb_neq (Z.of_nat (length pre)) (-1))) by lia.
    destruct (indexOf_behind 0x7B%N 0x5B%N rest) as [-> | Hge]; [done | |].
    + rewrite ?orb_true_r, ?andb_false_r; cbn [negb andb orb Z.eqb]; apply substring_to_zero.
    + rewrite (proj2 (Z.eqb_neq (indexOf 0x7B%N _) (-1))) by lia.
      rewrite (proj2 (Z.ltb_lt _ _)) by lia.
      rewrite ?orb_true_r, ?andb_false_r; cbn [negb andb orb Z.eqb]; apply substring_to_zero.
  - intros text pre rest Hc Hbr Hbc Hclose.
    rewrite cleanJson_cases, Hc. cbn zeta.
    rewrite (indexOf_first 0x7B%N pre) by done.
    rewrite (indexOf_after 0x5B%N pre) by done.
    rewrite (lastIndexOf_absent 0x7D%N).
    2: { intros [Hin | Hin]%elem_of_app; [|apply elem_of_cons in Hin as [? | Hin]];
         [apply Hclose, elem_of_app; by left | done
         | apply Hclose, elem_of_app; by right]. }
    rewrite (proj2 (Z.eqb_neq (Z.of_nat (length pre)) (-1))) by lia.
    rewrite orb_false_r.
    destruct (indexOf_behind 0x5B%N 0x7B%N rest) as [-> | Hge]; [done | |].
    + rewrite ?orb_true_r, ?andb_false_r; cbn [negb andb orb Z.eqb]; apply substring_to_zero.
    + rewrite (proj2 (Z.eqb_neq (indexOf 0x5B%N _) (-1))) by lia.
      rewrite (proj2 (Z.ltb_ge _ _)) by lia.
      rewrite ?orb_true_r, ?andb_false_r; cbn [negb andb orb Z.eqb]; apply substring_to_zero.
Qed.

(** A truncated array: what is returned is the text in front of it. *)
Lemma cleanJson_unclosed_witness : cleanJson (js "abc [1, 2") = js "abc ".
Proof.
  refine (proj1 (proj2 cleanJson_unclosed) (js "abc [1, 2")
            (js "abc ") (js "1, 2") _ _ _ _).
  - by vm_compute.
  - apply (bool_decide_unpack _). by vm_compute.
  - apply (bool_decide_unpack _). by vm_compute.
  - apply (bool_decide_unpack _). by vm_compute.
Defined.

(** ** [generateDeterministicId] *)

Lemma inRange_spec lo hi u : inRange lo hi u = true ↔ (lo ≤ u ≤ hi)%N.
Proof. unfold inRange. rewrite andb_true_iff, !N.leb_le. done. Qed.

Lemma inRange_false lo hi u : (u < lo ∨ hi < u)%N → inRange lo hi u = false.
Proof.
  intros H. apply not_true_is_false. rewrite inRange_spec. lia.
Qed.

Lemma inRange_true lo hi u : (lo ≤ u ≤ hi)%N → inRange lo hi u = true.
Proof. apply inRange_spec. Qed.

(** Width folding commutes with lower-casing, one code unit at a time. *)
Lemma toHalfwidth_lowerUnitWide u :
  toHalfwidth (lowerUnitWide u) = lowerUnit (if isFullwidthAlnum u then u - 0xFEE0 else u)%N.
Proof.
  unfold lowerUnitWide, isFullwidthAlnum.
  destruct (inRange 0xFF21%N 0xFF3A%N u) eqn:Hcap.
  - apply inRange_spec in Hcap. cbn [orb].
    unfold toHalfwidth, isFullwidthAlnum. cbn [fmap list_fmap].
    rewrite (inRange_false 0xFF21%N 0xFF3A%N (u + 0x20)) by lia.
    rewrite (inRange_true 0xFF41%N 0xFF5A%N (u + 0x20)) by lia. cbn [orb].
    unfold lowerUnit. rewrite (inRange_true 0x41%N 0x5A%N (u - 0xFEE0)) by lia.
    f_equal. lia.
  - cbn [orb]. apply not_true_iff_false in Hcap. rewrite inRange_spec in Hcap.
    destruct (inRange 0xFF41%N 0xFF5A%N u) eqn:Hlow;
      [|destruct (inRange 0xFF10%N 0xFF19%N u) eqn:Hdig]; cbn [orb];
      try apply inRange_spec in Hlow; try apply inRange_spec in Hdig.
    + unfold lowerUnit.
      rewrite (inRange_false 0x41%N 0x5A%N u) by lia.
      rewrite (inRange_false 0x41%N 0x5A%N (u - 0xFEE0)) by lia.
      rewrite (proj2 (N.eqb_neq u 0x130)), (proj2 (N.eqb_neq u 0x212A)) by lia.
      rewrite (proj2 (N.eqb_neq (u - 0xFEE0) 0x130)) by lia.
      rewrite (proj2 (N.eqb_neq (u - 0xFEE0) 0x212A)) by lia.
      unfold toHalfwidth, isFullwidthAlnum. cbn [fmap list_fmap].
      rewrite (inRange_false 0xFF21%N 0xFF3A%N u) by lia.
      by rewrite (inRange_true 0xFF41%N 0xFF5A%N u) by lia.
    + unfold lowerUnit.
      rewrite (inRange_false 0x41%N 0x5A%N u) by lia.
      rewrite (inRange_false 0x41%N 0x5A%N (u - 0xFEE0)) by lia.
      rewrite (proj2 (N.eqb_neq u 0x130)), (proj2 (N.eqb_neq u 0x212A)) by lia.
      rewrite (proj2 (N.eqb_neq (u - 0xFEE0) 0x130)) by lia.
      rewrite (proj2 (N.eqb_neq (u - 0xFEE0) 0x212A)) by lia.
      unfold toHalfwidth, isFullwidthAlnum. cbn [fmap list_fmap].
      rewrite (inRange_false 0xFF21%N 0xFF3A%N u) by lia.
      rewrite (inRange_false 0xFF41%N 0xFF5A%N u) by lia.
      by rewrite (inRange_true 0xFF10%N 0xFF19%N u) by lia.
    + apply not_true_iff_false in Hlow, Hdig.
      rewrite inRange_spec in Hlow, Hdig.
      unfold lowerUnit, toHalfwidth, isFullwidthAlnum.
      destruct (inRange 0x41%N 0x5A%N u) eqn:Hasc.
      * apply inRange_spec in Hasc. cbn [fmap list_fmap].
        rewrite (inRange_false 0xFF21%N 0xFF3A%N (u + 0x20)) by lia.
        rewrite (inRange_false 0xFF41%N 0xFF5A%N (u + 0x20)) by lia.
        by rewrite (inRange_false 0xFF10%N 0xFF19%N (u + 0x20)) by lia.
      * destruct (N.eqb_spec u 0x130) as [-> | ?]; [done|].
        destruct (N.eqb_spec u 0x212A) as [-> | ?]; [done|].
        cbn [fmap list_fmap].
        rewrite (inRange_false 0xFF21%N 0xFF3A%N u) by lia.
        rewrite (inRange_false 0xFF41%N 0xFF5A%N u) by lia.
        by rewrite (inRange_false 0xFF10%N 0xFF19%N u) by lia.
Qed.

Lemma toHalfwidth_toLowerCaseWide s :
  toHalfwidth (toLowerCaseWide s) = toLowerCase (toHalfwidth s).
Proof.
  unfold toLowerCaseWide, toLowerCase. induction s as [|u s IH]; [done|].
  cbn [mbind list_bind].
  change (list_bind _ _ ?f ?l) with (l ≫= f) in *.
  unfold toHalfwidth at 1. rewrite fmap_app. fold (toHalfwidth (lowerUnitWide u)).
  fold (toHalfwidth (s ≫= lowerUnitWide)). rewrite IH, toHalfwidth_lowerUnitWide.
  unfold toHalfwidth at 2. cbn [fmap list_fmap mbind list_bind].
  done.
Qed.

Lemma toHalfwidth_plain s :
  Forall (λ u, isFullwidthAlnum u = false) s → toHalfwidth s = s.
Proof.
  unfold toHalfwidth. induction 1 as [|u s Hu _ IH]; [done|].
  cbn [fmap list_fmap]. rewrite Hu. f_equal. exact IH.
Qed.

Lemma generateDeterministicId_folded bank name :
  generateDeterministicId bank name
  = js "live_" ++ normalizeKey (toHalfwidth (bank ++ name)).
Proof.
  unfold generateDeterministicId, normalizeKey.
  by rewrite toHalfwidth_toLowerCaseWide.
Qed.

(** X20: the identifier is [live_] followed by the canonical key of the
    identity with its fullwidth letters and digits folded to their Basic
    Latin counterparts; what follows the prefix consists of members of the
    key class; and for an identity without fullwidth letters and digits it
    is [live_] followed by the very key [deduplicateCards] uses. *)
Theorem generateDeterministicId_key (bank name : JSString) :
  generateDeterministicId bank name
  = js "live_" ++ normalizeKey (toHalfwidth (bank ++ name))
  ∧ (∃ raw, generateDeterministicId bank name = js "live_" ++ raw
            ∧ Forall (λ u, inKeyClass u = true) raw)
  ∧ (Forall (λ u, isFullwidthAlnum u = false) (bank ++ name) →
     generateDeterministicId bank name = js "live_" ++ normalizeKey (bank ++ name)).
Proof.
  split_and!.
  - apply generateDeterministicId_folded.
  - eexists. split; [reflexivity|].
    rewrite replaceOutsideKeyClass_filter. apply Forall_forall.
    by intros u [? _]%list_elem_of_filter.
  - intros Hplain. by rewrite generateDeterministicId_folded, toHalfwidth_plain.
Qed.

Lemma generateDeterministicId_key_witness :
  generateDeterministicId (js "Foo") (js "J Card")
  = js "live_" ++ normalizeKey (js "Foo" ++ js "J Card").
Proof.
  refine (proj2 (proj2 (generateDeterministicId_key (js "Foo") (js "J Card"))) _).
  repeat constructor.
Defined.

(** X21: among records whose identifier was generated from their bank and
    name and whose identity has no fullwidth letters or digits, two records
    have the same identifier exactly when they have the same canonical key:
    the merge by identifier and [deduplicateCards] agree on which of them
    are duplicates. *)
Theorem generated_id_matches_key (c1 c2 : CreditCard) :
  id c1 = generateDeterministicId (bank c1) (name c1) →
  id c2 = generateDeterministicId (bank c2) (name c2) →
  Forall (λ u, isFullwidthAlnum u = false) (bank c1 ++ name c1) →
  Forall (λ u, isFullwidthAlnum u = false) (bank c2 ++ name c2) →
  id c1 = id c2 ↔ cardKey c1 = cardKey c2.
Proof.
  intros H1 H2 P1 P2. rewrite H1, H2.
  rewrite !generateDeterministicId_folded, !toHalfwidth_plain by done.
  unfold cardKey. split; [by intros ?%app_inv_head | by intros ->].
Qed.

Lemma generated_id_matches_key_witness :
  id fooLive = id (plainCard (js "live_foojcard") (js "FOO") (js "J-Card") (Some true))
  ↔ cardKey fooLive
    = cardKey (plainCard (js "live_foojcard") (js "FOO") (js "J-Card") (Some true)).
Proof.
  refine (generated_id_matches_key fooLive
            (plainCard (js "live_foojcard") (js "FOO") (js "J-Card") (Some true))
            _ _ _ _).
  - reflexivity.
  - reflexivity.
  - repeat constructor.
  - repeat constructor.
Defined.
